(** * K11 OMNI: event log, request tracker and log streaming

    A shallow embedding of these pieces of the server:

    - [services/logger.js]: the class [K11Logger] (in-memory rolling buffer,
      per-level counters, [emit('log', entry)] to the registered listeners);
    - [middleware/request-tracker.js]: the [finish] handler of
      [requestTracker] and [requestTracker.getStats];
    - [routes/system.js]: the set [_sseClients], the ['log'] listener that
      broadcasts to it, the [GET /stream] handler with its [close] handler,
      [POST /log] and [_formatUptime];
    - [middleware/auth.js]: [authMiddleware];
    - [services/ai-supervisor.js] and [routes/ai.js]: [analyzeLogs] and the
      [POST /analyze-logs] handler.

    Conventions of the embedding.

    - JavaScript numbers that the code only ever uses as integers (counters,
      status codes, millisecond clocks, rounded averages) are [Z]; the two
      quantities that are fractional ([elapsedMs] and the per-route
      [totalMs]) are exact rationals [Q].  Binary floating point rounding is
      not modelled.
    - Readings of the environment ([Date.now()], [new Date().toISOString()],
      [Math.random()]) are inputs of the operation that performs them.
    - A call either returns or throws: [completion].
    - [console.log] and [fs.appendFile] in [_write] have no effect on the
      state that is modelled and are left out. *)

From Stdlib Require Import ZArith QArith Qround Qabs Lqa.
From stdpp Require Import base list strings pretty gmap fin_maps sorting.

Local Open Scope Z_scope.

(** ** JavaScript helpers *)

Module JS.

(** How a call ends: with a value, or with an exception. *)
Inductive completion (A : Type) : Type :=
  | Return (a : A)
  | Throw.
Arguments Return {A} a.
Arguments Throw {A}.

(** An integral number or [NaN] (what [parseInt] yields). *)
Inductive JsNum : Type :=
  | Int (z : Z)
  | NaN.

(** Unary minus. *)
Definition neg (n : JsNum) : JsNum :=
  match n with
  | Int z => Int (- z)
  | NaN => NaN
  end.

(** [ToIntegerOrInfinity]: [NaN] becomes [0]. *)
Definition to_integer (n : JsNum) : Z :=
  match n with
  | Int z => z
  | NaN => 0
  end.

(** The index [Array.prototype.slice] derives from a relative position:
    a negative one counts from the end, and both are clamped to the array. *)
Definition clamp_index (len rel : Z) : Z :=
  if rel <? 0 then Z.max (len + rel) 0 else Z.min rel len.

(** [arr.slice(start)] *)
Definition slice_from {A} (start : Z) (arr : list A) : list A :=
  drop (Z.to_nat (clamp_index (Z.of_nat (length arr)) start)) arr.

(** [arr.slice(start, end)] *)
Definition slice {A} (start end_ : Z) (arr : list A) : list A :=
  let len := Z.of_nat (length arr) in
  let k := clamp_index len start in
  let final := clamp_index len end_ in
  take (Z.to_nat (final - k)) (drop (Z.to_nat k) arr).

(** The last [m] elements of an array. *)
Definition keep_last {A} (m : nat) (l : list A) : list A :=
  drop (length l - m) l.

(** [Math.round]: the nearest integer, halves towards plus infinity. *)
Definition Math_round (x : Q) : Z := Qfloor (x + (1 # 2))%Q.

(** Truthiness of a possibly absent string: [undefined] and [''] are falsy. *)
Definition truthy (o : option string) : bool :=
  match o with
  | Some s => negb (String.eqb s EmptyString)
  | None => false
  end.

(** [o || d] on strings. *)
Definition or_default (o : option string) (d : string) : string :=
  match o with
  | Some s => if String.eqb s EmptyString then d else s
  | None => d
  end.

(** Forget the value a call returned. *)
Definition void {A} (c : completion A) : completion unit :=
  match c with
  | Return _ => Return tt
  | Throw => Throw
  end.

End JS.

Import JS.

(** ** services/logger.js *)

Module Logger.

(** Values stored in the [meta] object of an entry. *)
Inductive MetaVal : Type :=
  | MNum (z : Z)
  | MStr (s : string).

Record LogEntry : Type := mkEntry {
  eid : string;
  ts : string;
  level : string;
  module_ : string;
  message : string;
  meta : option (list (string * MetaVal));
  uptime : Z
}.

(** What [_write] reads from the environment: [Date.now()], the ISO
    rendering of [new Date()] and the four base-36 digits taken from
    [Math.random()]. *)
Record Tick : Type := mkTick {
  now : Z;
  iso : string;
  rnd : string
}.

Section WithListeners.

(** [W] is the state the listeners act on (for the server: the SSE clients). *)
Context {W : Type}.

(** [MAX_LINES = parseInt(process.env.LOG_MAX_LINES || '2000', 10)] *)
Variable MAX_LINES : Z.

(** A listener registered with [on('log', f)]: it may change [W], and it
    may throw. *)
Definition Listener : Type := LogEntry → W → W * completion unit.

Record K11Logger : Type := mkLogger {
  _buffer : list LogEntry;
  _stats : gmap string Z;
  _startTime : Z;
  _listeners : list Listener
}.

(** [constructor()] *)
Definition new (startTime : Z) : K11Logger :=
  {| _buffer := [];
     _stats := <["debug" := 0]> (<["info" := 0]> (<["warn" := 0]>
                 (<["error" := 0]> (<["critical" := 0]> ∅))));
     _startTime := startTime;
     _listeners := [] |}.

(** [on('log', f)]: listeners are kept in registration order. *)
Definition on (f : Listener) (L : K11Logger) : K11Logger :=
  {| _buffer := _buffer L;
     _stats := _stats L;
     _startTime := _startTime L;
     _listeners := _listeners L ++ [f] |}.

(** [EventEmitter.prototype.emit]: the listeners are called synchronously in
    registration order; an exception thrown by one of them is not caught, so
    it ends the call and the listeners after it are not run. *)
Fixpoint emit (ls : list Listener) (entry : LogEntry) (w : W)
  : W * completion unit :=
  match ls with
  | [] => (w, Return tt)
  | f :: ls' =>
      match f entry w with
      | (w', Return _) => emit ls' entry w'
      | (w', Throw) => (w', Throw)
      end
  end.

(** The entry built at the top of [_write]. *)
Definition make_entry (t : Tick) (startTime : Z) (lvl : string)
    (mod_ : option string) (msg : string)
    (mt : option (list (string * MetaVal))) : LogEntry :=
  {| eid := pretty (now t) +:+ "-" +:+ rnd t;
     ts := iso t;
     level := lvl;
     module_ := or_default mod_ "CORE";
     message := msg;
     meta := mt;
     uptime := (now t - startTime) `div` 1000 |}.

(** [this._stats[level] = (this._stats[level] || 0) + 1] *)
Definition bump (lvl : string) (st : gmap string Z) : gmap string Z :=
  <[lvl := default 0 (st !! lvl) + 1]> st.

(** [this._buffer.push(entry); if (this._buffer.length > MAX_LINES)
    this._buffer.shift();] *)
Definition push_rolling (entry : LogEntry) (buf : list LogEntry)
  : list LogEntry :=
  let buf' := buf ++ [entry] in
  if Z.of_nat (length buf') >? MAX_LINES then drop 1 buf' else buf'.

(** [_write(level, module, message, meta)]: the result is the logger and
    listener state after the call, and the entry if the call returns. *)
Definition _write (t : Tick) (lvl : string) (mod_ : option string)
    (msg : string) (mt : option (list (string * MetaVal)))
    (L : K11Logger) (w : W) : K11Logger * W * completion LogEntry :=
  let entry := make_entry t (_startTime L) lvl mod_ msg mt in
  let L' := {| _buffer := push_rolling entry (_buffer L);
               _stats := bump lvl (_stats L);
               _startTime := _startTime L;
               _listeners := _listeners L |} in
  match emit (_listeners L') entry w with
  | (w', Return _) => (L', w', Return entry)
  | (w', Throw) => (L', w', Throw)
  end.

Definition debug := fun t => _write t "debug".
Definition info := fun t => _write t "info".
Definition warn := fun t => _write t "warn".
Definition error := fun t => _write t "error".
Definition critical := fun t => _write t "critical".

(** The levels at which the five methods above call [_write]; they are the
    keys of [_stats] that the constructor sets. *)
Definition method_levels : list string :=
  ["debug"; "info"; "warn"; "error"; "critical"].

(** [getLogs({ level, module, limit = 200 } = {})] *)
Definition getLogs (lvl mod_ : option string) (limit : option JsNum)
    (L : K11Logger) : list LogEntry :=
  let limit := default (Int 200) limit in
  let entries := _buffer L in
  let entries :=
    if truthy lvl then filter (λ e, Some (level e) = lvl) entries
    else entries in
  let entries :=
    if truthy mod_ then filter (λ e, Some (module_ e) = mod_) entries
    else entries in
  reverse (slice_from (to_integer (neg limit)) entries).

(** The object returned by [getStats()]: the counters of [_stats] spread
    into it, and three more fields. *)
Record LogStats : Type := mkLogStats {
  counts : gmap string Z;
  ls_total : Z;
  ls_uptimeMs : Z;
  bufferSize : Z
}.

(** [Object.values(this._stats).reduce((a, b) => a + b, 0)] *)
Definition sum_values (st : gmap string Z) : Z :=
  map_fold (λ _ v acc, acc + v) 0 st.

(** [getStats()], with [Date.now()] as [now_]. *)
Definition getStats (now_ : Z) (L : K11Logger) : LogStats :=
  {| counts := _stats L;
     ls_total := sum_values (_stats L);
     ls_uptimeMs := now_ - _startTime L;
     bufferSize := Z.of_nat (length (_buffer L)) |}.

(** A call of [_write] with its arguments and environment. *)
Record Call : Type := mkCall {
  c_tick : Tick;
  c_level : string;
  c_module : option string;
  c_message : string;
  c_meta : option (list (string * MetaVal))
}.

(** The entry a call creates in a logger started at [startTime]. *)
Definition entry_of (startTime : Z) (c : Call) : LogEntry :=
  make_entry (c_tick c) startTime (c_level c) (c_module c) (c_message c)
    (c_meta c).

Definition write_call (c : Call) (L : K11Logger) (w : W)
  : K11Logger * W * completion LogEntry :=
  _write (c_tick c) (c_level c) (c_module c) (c_message c) (c_meta c) L w.

(** A sequence of calls, each made whether or not an earlier one threw. *)
Definition write_calls (cs : list Call) (L : K11Logger) (w : W)
  : K11Logger * W :=
  foldl (λ Lw c, (write_call c Lw.1 Lw.2).1) (L, w) cs.

(** The filter that [getLogs] applies, as a predicate on entries: a falsy
    [level] or [module] does not restrict. *)
Definition matches (lvl mod_ : option string) (e : LogEntry) : Prop :=
  (truthy lvl = true → Some (level e) = lvl) ∧
  (truthy mod_ = true → Some (module_ e) = mod_).

#[global] Instance matches_dec lvl mod_ e : Decision (matches lvl mod_ e).
Proof. unfold matches. apply _. Defined.

End WithListeners.

End Logger.

(** ** middleware/request-tracker.js *)

Module RequestTracker.

Import Logger.

(** A value of [stats.byRoute]. *)
Record RouteStats : Type := mkRoute {
  count : Z;
  totalMs : Q;
  errors : Z
}.

(** The module-level object [stats].  [byRoute] is an object whose keys
    are route strings; they all contain a space, so none of them is an array
    index and [Object.entries] lists them in insertion order: it is kept as
    an association list in that order. *)
Record Stats : Type := mkStats {
  total : Z;
  ok : Z;
  errors4xx : Z;
  errors5xx : Z;
  slow : Z;
  avgLatencyMs : Z;
  byRoute : list (string * RouteStats);
  startTime : Z
}.

Definition initial (startTime_ : Z) : Stats :=
  {| total := 0; ok := 0; errors4xx := 0; errors5xx := 0; slow := 0;
     avgLatencyMs := 0; byRoute := []; startTime := startTime_ |}.

Definition SLOW_THRESHOLD_MS : Q := 500.

(** [x > y] on rationals. *)
Definition Qgt_bool (x y : Q) : bool := negb (Qle_bool x y).

(** [stats.byRoute[route]] *)
Fixpoint get_route (route : string) (m : list (string * RouteStats))
  : option RouteStats :=
  match m with
  | [] => None
  | (k, v) :: m' => if decide (k = route) then Some v else get_route route m'
  end.

(** [if (!stats.byRoute[route]) stats.byRoute[route] = {count: 0, totalMs: 0,
    errors: 0}]: a new key goes last. *)
Definition ensure_route (route : string) (m : list (string * RouteStats))
  : list (string * RouteStats) :=
  match get_route route m with
  | Some _ => m
  | None => m ++ [(route, {| count := 0; totalMs := 0; errors := 0 |})]
  end.

(** In-place update of the value stored under [route]. *)
Definition alter_route (f : RouteStats → RouteStats) (route : string)
    (m : list (string * RouteStats)) : list (string * RouteStats) :=
  map (λ kv, if decide (kv.1 = route) then (kv.1, f kv.2) else kv) m.

(** The three updates of [stats.byRoute[route]] in the [finish] handler. *)
Definition hit (status : Z) (elapsedMs : Q) (s : RouteStats) : RouteStats :=
  {| count := count s + 1;
     totalMs := (totalMs s + elapsedMs)%Q;
     errors := if status >=? 400 then errors s + 1 else errors s |}.

(** The counters after one completed request. *)
Definition update_stats (route : string) (status : Z) (elapsedMs : Q)
    (st : Stats) : Stats :=
  let total' := total st + 1 in
  {| total := total';
     ok := if status >=? 500 then ok st
           else if status >=? 400 then ok st else ok st + 1;
     errors4xx := if status >=? 500 then errors4xx st
                  else if status >=? 400 then errors4xx st + 1
                  else errors4xx st;
     errors5xx := if status >=? 500 then errors5xx st + 1 else errors5xx st;
     slow := if Qgt_bool elapsedMs SLOW_THRESHOLD_MS then slow st + 1
             else slow st;
     avgLatencyMs :=
       Math_round ((inject_Z (avgLatencyMs st) * inject_Z (total' - 1)
                    + elapsedMs) / inject_Z total')%Q;
     byRoute := alter_route (hit status elapsedMs) route
                  (ensure_route route (byRoute st));
     startTime := startTime st |}.

Section WithLogger.

Context {W : Type}.
Variable MAX_LINES : Z.

(** The [finish] handler of [requestTracker], for a request [method path]
    answered with [status] after [elapsedMs] milliseconds.  The counters are
    updated first; the logger is called last, so they keep their new values
    also when that call throws. *)
Definition recordCompletion (t : Tick) (method path : string) (status : Z)
    (elapsedMs : Q) (st : Stats) (L : K11Logger) (w : W)
  : Stats * @K11Logger W * W * completion unit :=
  let route := method +:+ " " +:+ path in
  let st' := update_stats route status elapsedMs st in
  if Qgt_bool elapsedMs SLOW_THRESHOLD_MS then
    let '(L', w', c) :=
      warn MAX_LINES t (Some "REQUEST") ("Lento: " +:+ route)
        (Some [("ms", MNum (Math_round elapsedMs)); ("status", MNum status)])
        L w in
    (st', L', w', void c)
  else if status >=? 500 then
    let '(L', w', c) :=
      error MAX_LINES t (Some "REQUEST")
        ("Erro " +:+ pretty status +:+ ": " +:+ route)
        (Some [("ms", MNum (Math_round elapsedMs))]) L w in
    (st', L', w', void c)
  else (st', L, w, Return tt).

(** A completed request with its environment. *)
Record Completion : Type := mkCompletion {
  r_tick : Tick;
  r_method : string;
  r_path : string;
  r_status : Z;
  r_elapsedMs : Q
}.

(** [`${req.method} ${req.path}`] *)
Definition route_of (c : Completion) : string :=
  r_method c +:+ " " +:+ r_path c.

Definition record (c : Completion) (st : Stats) (L : K11Logger) (w : W)
  : Stats * @K11Logger W * W * completion unit :=
  recordCompletion (r_tick c) (r_method c) (r_path c) (r_status c)
    (r_elapsedMs c) st L w.

(** A sequence of completed requests, each handled whether or not the
    handler of an earlier one threw. *)
Definition record_all (cs : list Completion) (st : Stats) (L : K11Logger)
    (w : W) : Stats * @K11Logger W * W :=
  foldl (λ s c, (record c s.1.1 s.1.2 s.2).1) (st, L, w) cs.

End WithLogger.

(** What holds of [byRoute] in every state the handler can produce: the keys
    are distinct and every route has been counted at least once. *)
Definition routes_ok (m : list (string * RouteStats)) : Prop :=
  NoDup (map fst m) ∧ Forall (λ kv, 1 ≤ count kv.2) m.

(** The requests the handler reports to the logger: the slow ones and,
    of the others, those answered with status 500 or more. *)
Definition is_slow (c : Completion) : bool :=
  Qgt_bool (r_elapsedMs c) SLOW_THRESHOLD_MS.

Definition is_logged (c : Completion) : bool :=
  is_slow c || (r_status c >=? 500).

(** Sums over the values of [byRoute]. *)
Definition sum_routes (φ : RouteStats → Z) (m : list (string * RouteStats))
  : Z :=
  foldr (λ kv acc, φ kv.2 + acc) 0 m.

(** The arithmetic mean of a non-empty list, computed directly. *)
Definition sumQ (xs : list Q) : Q := foldr Qplus 0%Q xs.

Definition mean (xs : list Q) : Q :=
  (sumQ xs / inject_Z (Z.of_nat (length xs)))%Q.

(** An element of [topRoutes]. *)
Record TopRoute : Type := mkTop {
  route : string;
  tr_count : Z;
  avgMs : Z;
  tr_errors : Z
}.

(** [Array.prototype.sort(cmp)] is a stable sort: elements that [cmp] does
    not order keep their relative position.  Each element is inserted in
    front of the sorted rest, before the first element that [cmp] does not
    put ahead of it. *)
Fixpoint insert_by {A} (cmp : A → A → Z) (x : A) (l : list A) : list A :=
  match l with
  | [] => [x]
  | y :: l' => if cmp x y <=? 0 then x :: l else y :: insert_by cmp x l'
  end.

Definition sort {A} (cmp : A → A → Z) (l : list A) : list A :=
  foldr (insert_by cmp) [] l.

(** [(a, b) => b[1].count - a[1].count] *)
Definition by_count_desc (a b : string * RouteStats) : Z :=
  count b.2 - count a.2.

(** [([route, s]) => ({route, count: s.count, avgMs: Math.round(s.totalMs /
    s.count), errors: s.errors})] *)
Definition top_of (kv : string * RouteStats) : TopRoute :=
  {| route := kv.1;
     tr_count := count kv.2;
     avgMs := Math_round (totalMs kv.2 / inject_Z (count kv.2))%Q;
     tr_errors := errors kv.2 |}.

(** The [topRoutes] field of [getStats()]. *)
Definition topRoutes (st : Stats) : list TopRoute :=
  map top_of (slice 0 10 (sort by_count_desc (byRoute st))).

(** The object returned by [requestTracker.getStats()]. *)
Record Snapshot : Type := mkSnapshot {
  stats : Stats;
  uptimeMs : Z;
  snap_topRoutes : list TopRoute
}.

Definition getStats (now_ : Z) (st : Stats) : Snapshot :=
  {| stats := st;
     uptimeMs := now_ - startTime st;
     snap_topRoutes := topRoutes st |}.

End RequestTracker.

(** ** routes/system.js *)

Module System.

Import Logger.

(** A response object [res], known by its identity. *)
Definition Res : Type := nat.

(** What is written to a response.  [Data e] stands for the frame
    [`data: ${JSON.stringify(e)}\n\n`], [Connected ts] for the frame of
    [{type: 'connected', ts}]. *)
Inductive Msg : Type :=
  | Connected (ts_ : string)
  | Data (e : LogEntry).

(** What happens to the clients, in order. *)
Inductive Event : Type :=
  | Wrote (r : Res) (m : Msg)
  | Added (r : Res)
  | Deleted (r : Res).

(** [_sseClients] is a [Set]: no duplicates, iterated in insertion order.
    [broken] are the responses whose [write] throws; [trace] is the history
    of successful writes and of changes of the set. *)
Record Sse : Type := mkSse {
  _sseClients : list Res;
  broken : gset Res;
  trace : list Event
}.

Definition log_event (ev : Event) (s : Sse) : Sse :=
  {| _sseClients := _sseClients s; broken := broken s;
     trace := trace s ++ [ev] |}.

(** [res.write(msg)] *)
Definition res_write (r : Res) (m : Msg) (s : Sse) : Sse * completion unit :=
  if decide (r ∈ broken s) then (s, Throw)
  else (log_event (Wrote r m) s, Return tt).

(** [_sseClients.add(res)] *)
Definition sse_add (r : Res) (s : Sse) : Sse :=
  log_event (Added r)
    {| _sseClients := if decide (r ∈ _sseClients s) then _sseClients s
                      else _sseClients s ++ [r];
       broken := broken s; trace := trace s |}.

(** [_sseClients.delete(res)] *)
Definition sse_delete (r : Res) (s : Sse) : Sse :=
  log_event (Deleted r)
    {| _sseClients := filter (λ x, x ≠ r) (_sseClients s);
       broken := broken s; trace := trace s |}.

(** [try { res.write(msg); } catch (_) { _sseClients.delete(res); }] *)
Definition try_write (m : Msg) (s : Sse) (r : Res) : Sse :=
  match res_write r m s with
  | (s', Return _) => s'
  | (s', Throw) => sse_delete r s'
  end.

(** The listener registered with [logger.on('log', ...)].  The callback of
    [forEach] only ever deletes the element it is visiting, so the elements
    visited are those of the set when the iteration starts. *)
Definition broadcast : @Listener Sse :=
  λ entry s, (foldl (try_write (Data entry)) s (_sseClients s), Return tt).

(** [recent.forEach(entry => res.write(...))]: the first failing write
    ends the iteration. *)
Fixpoint write_all (r : Res) (ms : list Msg) (s : Sse)
  : Sse * completion unit :=
  match ms with
  | [] => (s, Return tt)
  | m :: ms' =>
      match res_write r m s with
      | (s', Return _) => write_all r ms' s'
      | (s', Throw) => (s', Throw)
      end
  end.

(** What one step of the broadcast of [m] leaves in the trace for the
    client [r]: the write, or the removal of [r] when its write throws. *)
Definition fanout_event (m : Msg) (bad : gset Res) (r : Res) : Event :=
  if decide (r ∈ bad) then Deleted r else Wrote r m.

(** [`Cliente conectado (total: ${_sseClients.size})`] *)
Definition connected_message (size : nat) : string :=
  "Cliente conectado (total: " +:+ pretty size +:+ ")".

Section Stream.

Variable MAX_LINES : Z.

(** The entries replayed to a new client. *)
Definition recent (L : @K11Logger Sse) : list LogEntry :=
  reverse (getLogs None None (Some (Int 50)) L).

(** The handler of [GET /stream] for the response [r]; [conn_ts] is the
    timestamp put in the first frame.  The headers, the keepalive timer and
    the [close] handler it installs are left out. *)
Definition stream (conn_ts : string) (t : Tick) (r : Res)
    (L : @K11Logger Sse) (s : Sse) : @K11Logger Sse * Sse * completion unit :=
  match res_write r (Connected conn_ts) s with
  | (s1, Throw) => (L, s1, Throw)
  | (s1, Return _) =>
      match write_all r (map Data (recent L)) s1 with
      | (s2, Throw) => (L, s2, Throw)
      | (s2, Return _) =>
          let s3 := sse_add r s2 in
          let '(L', s4, c) :=
            info MAX_LINES t (Some "SSE")
              (connected_message (length (_sseClients s3))) None L s3 in
          (L', s4, void c)
      end
  end.

(** [`Cliente desconectado (total: ${_sseClients.size})`] *)
Definition disconnected_message (size : nat) : string :=
  "Cliente desconectado (total: " +:+ pretty size +:+ ")".

(** The [close] handler that [GET /stream] installs on the request of the
    response [r] (the [clearInterval] of the keepalive is left out). *)
Definition close (t : Tick) (r : Res) (L : @K11Logger Sse) (s : Sse)
  : @K11Logger Sse * Sse * completion unit :=
  let s1 := sse_delete r s in
  let '(L', s2, c) :=
    debug MAX_LINES t (Some "SSE")
      (disconnected_message (length (_sseClients s1))) None L s1 in
  (L', s2, void c).

End Stream.

(** The messages written to the response [r], in order. *)
Definition received (r : Res) (tr : list Event) : list Msg :=
  omap (λ ev, match ev with
              | Wrote r' m => if decide (r' = r) then Some m else None
              | _ => None
              end) tr.

(** How often the response [r] was removed from the set. *)
Definition removals (r : Res) (tr : list Event) : nat :=
  length (omap (λ ev, match ev with
                      | Deleted r' => if decide (r' = r) then Some r' else None
                      | _ => None
                      end) tr).

(** A field of the body of [POST /log], by what the handler can observe of
    it.  [FAbsent] is [undefined] and [FStr s] a string.  [FOther t txt] is
    any other value (null, a boolean, a number, an array, an object): [t]
    tells whether it is truthy, and [txt] is what [String(v)] does with it:
    the text it returns, or [Throw] (as for an object with a [toString]
    entry, which is not callable). *)
Inductive Field : Type :=
  | FAbsent
  | FStr (s : string)
  | FOther (truthy_ : bool) (text : completion string).

(** [!v] is false *)
Definition field_truthy (f : Field) : bool :=
  match f with
  | FAbsent => false
  | FStr s => negb (String.eqb s EmptyString)
  | FOther t _ => t
  end.

(** [String(v)] *)
Definition to_String (f : Field) : completion string :=
  match f with
  | FAbsent => Return "undefined"
  | FStr s => Return s
  | FOther _ txt => txt
  end.

(** [{ x = d }]: the default of a destructured field, used for [undefined]
    only. *)
Definition field_default (d : string) (f : Field) : Field :=
  match f with
  | FAbsent => FStr d
  | _ => f
  end.

(** The fields that [POST /log] reads from [req.body].  A [meta] that is
    kept ([meta || null]) is an object of the shape the entries carry. *)
Record LogBody : Type := mkBody {
  b_level : Field;
  b_module : Field;
  b_message : Field;
  b_meta : option (list (string * MetaVal))
}.

Definition validLevels : list string :=
  ["debug"; "info"; "warn"; "error"; "critical"].

(** [validLevels.includes(level) ? level : 'info']: only a string can be one
    of the levels. *)
Definition safe_level (level : Field) : string :=
  match level with
  | FStr l => if bool_decide (l ∈ validLevels) then l else "info"
  | _ => "info"
  end.

Section Routes.

Context {W : Type}.
Variable MAX_LINES : Z.

(** [s.slice(0, n)] *)
Variable slice0 : nat → string → string.

(** The handler of [POST /log]; [None] is a request without a body.  The
    result is the status of the response.  [logger[safeLevel]] is one of the
    five methods, each of which is [_write] at its level; its arguments are
    evaluated from left to right. *)
Definition post_log (t : Tick) (body : option LogBody) (L : @K11Logger W)
    (w : W) : @K11Logger W * W * completion Z :=
  let b := default (mkBody FAbsent FAbsent FAbsent None) body in
  let level := field_default "info" (b_level b) in
  let module := field_default "FRONTEND" (b_module b) in
  let message := b_message b in
  if negb (field_truthy message) then (L, w, Return 400)
  else
    let safeLevel := safe_level level in
    match to_String module with
    | Throw => (L, w, Throw)
    | Return m =>
        match to_String message with
        | Throw => (L, w, Throw)
        | Return msg =>
            let '(L', w', c) :=
              _write MAX_LINES t safeLevel (Some (slice0 20 m))
                (slice0 500 msg) (b_meta b) L w in
            (L', w', match c with Return _ => Return 200 | Throw => Throw end)
        end
    end.

End Routes.

(** JavaScript's [x % y] on numbers: the remainder has the sign of [x]. *)
Definition js_rem (x y : Q) : Q :=
  let q := (x / y)%Q in
  (x - y * inject_Z (if Qle_bool 0 q then Qfloor q else Qceiling q))%Q.

(** The three numbers that [_formatUptime(seconds)] prints. *)
Definition uptime_parts (seconds : Q) : Z * Z * Z :=
  let h := Qfloor (seconds / 3600) in
  let m := Qfloor (js_rem seconds 3600 / 60) in
  let s := Qfloor (js_rem seconds 60) in
  (h, m, s).

(** [_formatUptime(seconds)] *)
Definition _formatUptime (seconds : Q) : string :=
  let '(h, m, s) := uptime_parts seconds in
  pretty h +:+ "h " +:+ pretty m +:+ "m " +:+ pretty s +:+ "s".

End System.

(** ** middleware/auth.js *)

Module Auth.

Import Logger.

(** What the middleware reads from the request.  [query_token] is
    [req.query._token], taken to be a string when present. *)
Record Request : Type := mkRequest {
  path : string;
  authorization : option string;
  query_token : option string;
  ip : string;
  user_agent : option string
}.

(** How the middleware ends: [next()], or the 401 response. *)
Inductive Verdict : Type :=
  | Next
  | Unauthorized.

Definition PUBLIC_PATHS : list string := ["/health"; "/api/status"].

(** [PUBLIC_PATHS.some(p => req.path.startsWith(p))] *)
Definition is_public (p : string) : bool :=
  existsb (λ pub, String.prefix pub p) PUBLIC_PATHS.

Section WithLogger.

Context {W : Type}.
Variable MAX_LINES : Z.

(** [String.prototype.trim] *)
Variable trim : string → string.

(** [authHeader.slice(7)] *)
Definition after_bearer (authHeader : string) : string :=
  String.substring 7 (String.length authHeader - 7) authHeader.

(** The credential the request carries. *)
Definition provided (req : Request) : string :=
  let authHeader := or_default (authorization req) EmptyString in
  if String.prefix "Bearer " authHeader then trim (after_bearer authHeader)
  else or_default (query_token req) EmptyString.

(** The [meta] of the warning about a rejected request; [ua] is left out of
    the serialized entry when the header is absent. *)
Definition rejection_meta (req : Request) : list (string * MetaVal) :=
  [("ip", MStr (ip req)); ("path", MStr (path req))]
  ++ match user_agent req with
     | Some ua => [("ua", MStr (String.substring 0 60 ua))]
     | None => []
     end.

(** [authMiddleware(req, res, next)], with [process.env.API_SECRET_TOKEN] as
    [token]. *)
Definition authMiddleware (t : Tick) (token : option string) (req : Request)
    (L : @K11Logger W) (w : W) : @K11Logger W * W * completion Verdict :=
  if is_public (path req) then (L, w, Return Next)
  else if negb (truthy token) then
    let '(L', w', c) :=
      warn MAX_LINES t (Some "AUTH")
        "API_SECRET_TOKEN não configurado — auth desativada" None L w in
    (L', w', match c with Return _ => Return Next | Throw => Throw end)
  else if negb (truthy (Some (provided req)))
          || negb (bool_decide (Some (provided req) = token)) then
    let '(L', w', c) :=
      warn MAX_LINES t (Some "AUTH") "Token inválido ou ausente"
        (Some (rejection_meta req)) L w in
    (L', w', match c with Return _ => Return Unauthorized | Throw => Throw end)
  else (L, w, Return Next).

End WithLogger.

End Auth.

(** ** services/ai-supervisor.js and routes/ai.js: the analysis of logs *)

Module Supervisor.

Import Logger.

(** How the promise of [_callGroq] settles: resolved with the content of the
    answer, or rejected with an error. *)
Inductive GroqResult : Type :=
  | Resolved (content : string)
  | Rejected (message_ : string).

(** The object [analyzeLogs] resolves to (when it is not [null]). *)
Record Diagnosis : Type := mkDiagnosis {
  diagnosis : string;
  logsAnalyzed : nat;
  d_ts : string
}.

(** A line feed. *)
Definition nl : string := String (Ascii.ascii_of_nat 10) EmptyString.

(** [arr.join(sep)] on strings. *)
Fixpoint join (sep : string) (l : list string) : string :=
  match l with
  | [] => EmptyString
  | [x] => x
  | x :: l' => x +:+ sep +:+ join sep l'
  end.

(** [l => l.level === 'error' || l.level === 'critical'] *)
Definition is_critical (l : LogEntry) : bool :=
  String.eqb (level l) "error" || String.eqb (level l) "critical".

Section WithGroq.

(** [String.prototype.toUpperCase], the text of [_buildSystemPrompt()], and
    the outcome of [_callGroq] for a list of messages (role and content). *)
Variable toUpperCase : string → string.
Variable systemPrompt : string.
Variable _callGroq : list (string * string) → GroqResult.

(** [`[${l.level.toUpperCase()}] ${l.module}: ${l.message}`] *)
Definition log_line (l : LogEntry) : string :=
  "[" +:+ toUpperCase (level l) +:+ "] " +:+ module_ l +:+ ": " +:+ message l.

(** The prompt that [analyzeLogs] sends. *)
Definition logs_prompt (criticalLogs : list LogEntry) : string :=
  "Analise estes logs de erro do servidor K11 e forneça diagnóstico:"
  +:+ nl +:+ nl +:+ join nl (map log_line criticalLogs) +:+ nl +:+ nl
  +:+ "Forneça: causa raiz provável, impacto no sistema e ação corretiva imediata.".

(** [analyzeLogs(logs)]; [None] for the argument is a missing [logs], [None]
    as the result is [null], and [now_iso] is [new Date().toISOString()]. *)
Definition analyzeLogs (now_iso : string) (logs : option (list LogEntry))
  : option Diagnosis :=
  match logs with
  | None | Some [] => None
  | Some logs =>
      let criticalLogs := slice 0 20 (filter (λ l, is_critical l) logs) in
      if bool_decide (length criticalLogs = 0%nat) then None
      else
        match _callGroq [("system", systemPrompt);
                         ("user", logs_prompt criticalLogs)] with
        | Resolved response =>
            Some {| diagnosis := response;
                    logsAnalyzed := length criticalLogs;
                    d_ts := now_iso |}
        | Rejected _ => None
        end
  end.

(** What [POST /analyze-logs] answers (always with [ok: true]). *)
Inductive AnalyzeResponse : Type :=
  | NoCriticalErrors
  | Diagnosed (d : Diagnosis).

(** The handler of [POST /analyze-logs]. *)
Definition analyze_logs_route {W} (now_iso : string) (L : @K11Logger W)
  : AnalyzeResponse :=
  let logs := getLogs None None (Some (Int 100)) L in
  match analyzeLogs now_iso (Some logs) with
  | None => NoCriticalErrors
  | Some d => Diagnosed d
  end.

End WithGroq.

End Supervisor.

(** ** Concrete inputs used in examples *)

Module Samples.

Import Logger.

Definition tick0 : Tick := {| now := 1000; iso := "t"; rnd := "ab12" |}.

(** The calls [info("A"), warn("B"), error("C")]. *)
Definition three_calls : list Call :=
  [ mkCall tick0 "info" None "A" None;
    mkCall tick0 "warn" None "B" None;
    mkCall tick0 "error" None "C" None ].

(** Three calls of [error]. *)
Definition three_errors : list Call :=
  [ mkCall tick0 "error" None "A" None;
    mkCall tick0 "error" None "B" None;
    mkCall tick0 "error" None "C" None ].

(** A listener that throws, and one that keeps what it is notified of. *)
Definition thrower : @Listener (list LogEntry) := λ _ w, (w, Throw).
Definition recorder : @Listener (list LogEntry) :=
  λ e w, (w ++ [e], Return tt).

(** The completions [(200, 100), (200, 200), (404, 50), (500, 900)]. *)
Definition four_completions : list RequestTracker.Completion :=
  [ RequestTracker.mkCompletion tick0 "GET" "/a" 200 100;
    RequestTracker.mkCompletion tick0 "GET" "/a" 200 200;
    RequestTracker.mkCompletion tick0 "GET" "/b" 404 50;
    RequestTracker.mkCompletion tick0 "GET" "/c" 500 900 ].

(** Four completions with latencies [0.5, 2, 3.5, 5]. *)
Definition drifting_completions : list RequestTracker.Completion :=
  [ RequestTracker.mkCompletion tick0 "GET" "/a" 200 (1 # 2);
    RequestTracker.mkCompletion tick0 "GET" "/a" 200 2;
    RequestTracker.mkCompletion tick0 "GET" "/a" 200 (7 # 2);
    RequestTracker.mkCompletion tick0 "GET" "/a" 200 5 ].

(** Two clients are connected; the write of client 1 throws. *)
Definition two_clients : System.Sse :=
  {| System._sseClients := [1%nat; 2%nat];
     System.broken := {[1%nat]};
     System.trace := [] |}.

(** No client is connected. *)
Definition no_clients : System.Sse :=
  {| System._sseClients := []; System.broken := ∅; System.trace := [] |}.

(** Fifty-two calls of [info], with the messages 0 to 51. *)
Definition many_calls : list Call :=
  map (λ i : nat, mkCall tick0 "info" None (pretty i) None) (seq 0 52).

(** The server after these calls were made with the two clients connected:
    its logger, and its clients (client 1 was dropped by the first entry,
    client 2 was written all of them). *)
Definition busy_logger : @K11Logger System.Sse :=
  (write_calls 2000 many_calls (on System.broadcast (new 0)) two_clients).1.

Definition busy_clients : System.Sse :=
  (write_calls 2000 many_calls (on System.broadcast (new 0)) two_clients).2.

(** Bodies of [POST /log]: [{message: 0}], and [{level: 'fatal', module:
    null, message: 'disk full'}]. *)
Definition body_zero : System.LogBody :=
  System.mkBody System.FAbsent System.FAbsent
    (System.FOther false (Return "0")) None.

Definition body_fatal : System.LogBody :=
  System.mkBody (System.FStr "fatal") (System.FOther false (Return "null"))
    (System.FStr "disk full") None.

(** A request for [/healthcheck] without credentials, and a request for
    [/api/data/all] with a bearer token. *)
Definition req_health : Auth.Request :=
  Auth.mkRequest "/healthcheck" None None "10.0.0.1" None.

Definition req_data : Auth.Request :=
  Auth.mkRequest "/api/data/all" (Some "Bearer s3cret") (Some "other")
    "10.0.0.1" None.

End Samples.

(** * Properties *)

(** ** Array helpers *)

Module JSFacts.

(** The last [n] elements of a list. *)
Lemma slice_from_neg {A} (n : Z) (l : list A) :
  0 < n → slice_from (- n) l = drop (length l - Z.to_nat n) l.
Proof.
  intros Hn. unfold slice_from, clamp_index.
  destruct (Z.ltb_spec (- n) 0); [|lia].
  f_equal. lia.
Qed.

Lemma slice_from_nonneg {A} (k : nat) (l : list A) :
  slice_from (Z.of_nat k) l = drop k l.
Proof.
  unfold slice_from, clamp_index.
  destruct (Z.ltb_spec (Z.of_nat k) 0); [lia|].
  destruct (decide (k ≤ length l)%nat).
  - f_equal. lia.
  - rewrite !drop_ge; [done | lia | lia].
Qed.

Lemma slice_prefix {A} (n : nat) (l : list A) :
  slice 0 (Z.of_nat n) l = take n l.
Proof.
  unfold slice, clamp_index.
  destruct (Z.ltb_spec 0 0); [lia|].
  destruct (Z.ltb_spec (Z.of_nat n) 0); [lia|].
  replace (Z.to_nat (0 `min` Z.of_nat (length l))) with 0%nat by lia.
  rewrite drop_0.
  destruct (decide (n ≤ length l)%nat).
  - f_equal. lia.
  - rewrite !take_ge; [done | lia | lia].
Qed.

End JSFacts.

(** ** The event log *)

Module LoggerFacts.

Import Logger JSFacts Samples.

Section Facts.

Context {W : Type}.
Variable MAX_LINES : Z.

Abbreviation K11Logger := (@K11Logger W).
Abbreviation _write := (@_write W MAX_LINES).
Abbreviation write_call := (@write_call W MAX_LINES).
Abbreviation write_calls := (@write_calls W MAX_LINES).
Abbreviation push_rolling := (push_rolling MAX_LINES).

Lemma keep_last_length {A} (m : nat) (l : list A) :
  length (keep_last m l) = (length l `min` m)%nat.
Proof. unfold keep_last. rewrite length_drop. lia. Qed.

Lemma keep_last_snoc {A} (m : nat) (l : list A) (x : A) :
  keep_last m (keep_last m l ++ [x]) = keep_last m (l ++ [x]).
Proof.
  unfold keep_last.
  rewrite !length_app, length_drop. simpl.
  destruct (decide (length l ≤ m)%nat) as [Hle|Hgt].
  - replace (length l - m)%nat with 0%nat by lia. simpl.
    by replace (length l - 0 + 1 - m)%nat with (length l + 1 - m)%nat by lia.
  - replace (length l - (length l - m) + 1 - m)%nat with 1%nat by lia.
    destruct (decide (m = 0)%nat) as [->|Hm].
    { rewrite Nat.sub_0_r, drop_all. simpl.
      rewrite drop_ge; [done|]. rewrite length_app. simpl. lia. }
    rewrite (drop_app_le l [x]) by lia.
    rewrite (drop_app_le (drop _ l) [x]) by (rewrite length_drop; lia).
    rewrite drop_drop. do 2 f_equal. lia.
Qed.

Lemma push_rolling_keep_last (e : LogEntry) (buf : list LogEntry) :
  0 ≤ MAX_LINES →
  (length buf ≤ Z.to_nat MAX_LINES)%nat →
  push_rolling e buf = keep_last (Z.to_nat MAX_LINES) (buf ++ [e]).
Proof.
  intros H0 Hlen. unfold Logger.push_rolling, keep_last.
  rewrite length_app. simpl.
  destruct (Z.gtb_spec (Z.of_nat (length buf + 1)) MAX_LINES).
  - f_equal. lia.
  - replace (length buf + 1 - Z.to_nat MAX_LINES)%nat with 0%nat by lia.
    done.
Qed.

Lemma write_buffer t lvl mod_ msg mt (L : K11Logger) (w : W) :
  _buffer (_write t lvl mod_ msg mt L w).1.1
  = push_rolling (make_entry t (_startTime L) lvl mod_ msg mt) (_buffer L).
Proof. unfold Logger._write. simpl. by destruct (emit _ _ _) as [? []]. Qed.

Lemma write_stats t lvl mod_ msg mt (L : K11Logger) (w : W) :
  _stats (_write t lvl mod_ msg mt L w).1.1 = bump lvl (_stats L).
Proof. unfold Logger._write. simpl. by destruct (emit _ _ _) as [? []]. Qed.

Lemma write_startTime t lvl mod_ msg mt (L : K11Logger) (w : W) :
  _startTime (_write t lvl mod_ msg mt L w).1.1 = _startTime L.
Proof. unfold Logger._write. simpl. by destruct (emit _ _ _) as [? []]. Qed.

Lemma write_calls_snoc cs c (L : K11Logger) (w : W) :
  write_calls (cs ++ [c]) L w
  = (write_call c (write_calls cs L w).1 (write_calls cs L w).2).1.
Proof. unfold Logger.write_calls. by rewrite foldl_app. Qed.

Lemma write_calls_startTime cs (L : K11Logger) (w : W) :
  _startTime (write_calls cs L w).1 = _startTime L.
Proof.
  induction cs as [|c cs IH] using rev_ind; [done|].
  rewrite write_calls_snoc. unfold Logger.write_call.
  by rewrite write_startTime.
Qed.

(** The buffer after a sequence of calls: the last [MAX_LINES] of what it
    held and what was inserted. *)
Lemma write_calls_buffer cs (L : K11Logger) (w : W) :
  0 ≤ MAX_LINES →
  (length (_buffer L) ≤ Z.to_nat MAX_LINES)%nat →
  _buffer (write_calls cs L w).1
  = keep_last (Z.to_nat MAX_LINES)
      (_buffer L ++ map (entry_of (_startTime L)) cs).
Proof.
  intros H0 Hlen.
  induction cs as [|c cs IH] using rev_ind.
  - simpl. rewrite app_nil_r. unfold keep_last.
    by replace (length (_buffer L) - Z.to_nat MAX_LINES)%nat with 0%nat by lia.
  - rewrite write_calls_snoc. unfold Logger.write_call.
    rewrite write_buffer, write_calls_startTime.
    rewrite push_rolling_keep_last; [|done|].
    + rewrite IH, map_app, app_assoc. simpl. apply keep_last_snoc.
    + rewrite IH, keep_last_length. lia.
Qed.

Lemma getLogs_unfiltered (n : Z) (L : K11Logger) :
  0 < n →
  getLogs None None (Some (Int n)) L
  = reverse (keep_last (Z.to_nat n) (_buffer L)).
Proof.
  intros Hn. unfold getLogs. simpl. by rewrite slice_from_neg.
Qed.

(** C4 (ring bound).  Start from a logger whose buffer is empty and make
    [n > MAX_LINES] calls of [_write] (with [MAX_LINES] at least one).  Then
    the buffer is the inserted entries without the first [n - MAX_LINES], it
    holds exactly [MAX_LINES] entries, [getLogs({limit: MAX_LINES})] returns
    exactly [MAX_LINES] entries, and the oldest entry that survives (the
    first of the buffer, the last of the query) is the
    [(n - MAX_LINES + 1)]-th inserted one.  A single append to a full buffer
    drops its first entry and nothing else. *)
Theorem ring_bound (cs : list Call) (L0 : K11Logger) (w : W) :
  0 < MAX_LINES →
  _buffer L0 = [] →
  MAX_LINES < Z.of_nat (length cs) →
  let n := length cs in
  let m := Z.to_nat MAX_LINES in
  let L := (write_calls cs L0 w).1 in
  let inserted := map (entry_of (_startTime L0)) cs in
  _buffer L = drop (n - m) inserted ∧
  Z.of_nat (length (_buffer L)) = MAX_LINES ∧
  Z.of_nat (length (getLogs None None (Some (Int MAX_LINES)) L)) = MAX_LINES ∧
  is_Some (inserted !! (n - m)%nat) ∧
  head (_buffer L) = inserted !! (n - m)%nat ∧
  last (getLogs None None (Some (Int MAX_LINES)) L) = inserted !! (n - m)%nat ∧
  (∀ e buf, Z.of_nat (length buf) = MAX_LINES →
            push_rolling e buf = drop 1 buf ++ [e]).
Proof.
  intros Hpos Hempty Hn n m L inserted.
  assert (Hbuf : _buffer L = drop (n - m) inserted).
  { subst L. rewrite write_calls_buffer by (rewrite ?Hempty; simpl; lia).
    rewrite Hempty. simpl. unfold keep_last.
    subst inserted n m. by rewrite length_map. }
  assert (Hlen : length (_buffer L) = m).
  { rewrite Hbuf, length_drop. subst inserted n m. rewrite length_map. lia. }
  assert (Hq : getLogs None None (Some (Int MAX_LINES)) L
               = reverse (_buffer L)).
  { rewrite getLogs_unfiltered by done. unfold keep_last. fold m.
    rewrite Hlen, Nat.sub_diag. done. }
  assert (Hhead : head (_buffer L) = inserted !! (n - m)%nat).
  { rewrite Hbuf, head_lookup, lookup_drop. f_equal. lia. }
  split_and!.
  - done.
  - lia.
  - rewrite Hq, length_reverse. lia.
  - apply lookup_lt_is_Some. subst inserted n m. rewrite length_map. lia.
  - done.
  - by rewrite Hq, last_reverse.
  - intros e buf Hfull. unfold Logger.push_rolling.
    rewrite length_app. simpl.
    destruct (Z.gtb_spec (Z.of_nat (length buf + 1)) MAX_LINES); [|lia].
    rewrite drop_app_le; [done|]. lia.
Qed.

(** *** Lifetime counters *)

Lemma sum_values_insert_fresh (k : string) (v : Z) (st : gmap string Z) :
  st !! k = None → sum_values (<[k := v]> st) = sum_values st + v.
Proof.
  intros Hk. unfold sum_values.
  rewrite map_fold_insert_L; [done | intros; lia | done].
Qed.

Lemma sum_values_bump (lvl : string) (st : gmap string Z) :
  sum_values (bump lvl st) = sum_values st + 1.
Proof.
  unfold bump. destruct (st !! lvl) as [v|] eqn:Hl; simpl.
  - rewrite <- insert_delete_eq.
    rewrite sum_values_insert_fresh by apply lookup_delete_eq.
    unfold sum_values at 2.
    rewrite (map_fold_delete_L _ _ lvl v st); [|intros; lia|done].
    fold (sum_values (delete lvl st)). lia.
  - by rewrite sum_values_insert_fresh.
Qed.

Lemma bump_lookup (lvl l : string) (st : gmap string Z) :
  default 0 (bump lvl st !! l)
  = default 0 (st !! l) + (if decide (l = lvl) then 1 else 0).
Proof.
  unfold bump. destruct (decide (l = lvl)) as [->|Hne].
  - by rewrite lookup_insert_eq.
  - rewrite lookup_insert_ne by done. lia.
Qed.

Lemma write_calls_count (cs : list Call) (l : string) (L : K11Logger) (w : W) :
  Forall (λ c, c_level c = l) cs →
  default 0 (_stats (write_calls cs L w).1 !! l)
  = default 0 (_stats L !! l) + Z.of_nat (length cs).
Proof.
  induction cs as [|c cs IH] using rev_ind; intros Hall.
  - simpl. lia.
  - apply Forall_app in Hall as [Hcs Hc]. rewrite Forall_singleton in Hc.
    rewrite write_calls_snoc. unfold Logger.write_call.
    rewrite write_stats, bump_lookup. rewrite (IH Hcs).
    rewrite decide_True by congruence. rewrite length_app. simpl. lia.
Qed.

Lemma write_calls_stats_dom (cs : list Call) (l : string) (L : K11Logger)
    (w : W) :
  is_Some (_stats L !! l) → is_Some (_stats (write_calls cs L w).1 !! l).
Proof.
  intros Hl. induction cs as [|c cs IH] using rev_ind; [done|].
  rewrite write_calls_snoc. unfold Logger.write_call.
  rewrite write_stats. unfold bump.
  destruct (decide (c_level c = l)) as [->|Hne].
  - rewrite lookup_insert_eq. eauto.
  - by rewrite lookup_insert_ne.
Qed.

Lemma new_error_count (t0 : Z) :
  _stats (new (W:=W) t0) !! "error" = Some 0.
Proof. reflexivity. Qed.

(** C5 (lifetime counters).  From a freshly constructed logger, after
    [MAX_LINES + k] calls at level [error] (listeners may have been
    registered, nothing was logged before) the counter [error] of
    [getStats()] is [MAX_LINES + k] while [bufferSize] is [MAX_LINES].  In
    every state one call of [_write] adds one to the counter of its level
    and leaves the other counters alone, whatever happens to the buffer, so
    no counter ever decreases and [total] grows by one; [total] is the sum of
    the counters and [bufferSize] is the number of entries in the buffer. *)
Theorem lifetime_counts (cs : list Call) (k t0 now_ : Z) (L0 : K11Logger)
    (w : W) :
  0 ≤ MAX_LINES →
  0 ≤ k →
  _buffer L0 = [] →
  _stats L0 = _stats (new (W:=W) t0) →
  Forall (λ c, c_level c = "error") cs →
  Z.of_nat (length cs) = MAX_LINES + k →
  let st := getStats now_ (write_calls cs L0 w).1 in
  counts st !! "error" = Some (MAX_LINES + k) ∧
  bufferSize st = MAX_LINES ∧
  (∀ t lvl mod_ msg mt (L : K11Logger) (w' : W) (l : string),
     let L' := (_write t lvl mod_ msg mt L w').1.1 in
     default 0 (counts (getStats now_ L') !! l)
     = default 0 (counts (getStats now_ L) !! l)
       + (if decide (l = lvl) then 1 else 0) ∧
     default 0 (counts (getStats now_ L) !! l)
     ≤ default 0 (counts (getStats now_ L') !! l) ∧
     ls_total (getStats now_ L') = ls_total (getStats now_ L) + 1) ∧
  (∀ L : K11Logger,
     ls_total (getStats now_ L) = sum_values (counts (getStats now_ L)) ∧
     bufferSize (getStats now_ L) = Z.of_nat (length (_buffer L))).
Proof.
  intros Hmax Hk Hbuf0 Hstats0 Hall Hlen st.
  split_and!.
  - subst st. simpl.
    pose proof (write_calls_count cs "error" L0 w Hall) as Hc.
    destruct (write_calls_stats_dom cs "error" L0 w) as [v Hv].
    { rewrite Hstats0, new_error_count. eauto. }
    rewrite Hv in Hc |- *. simpl in Hc.
    rewrite Hc, Hstats0, new_error_count, Hlen. simpl. f_equal.
  - subst st. simpl.
    rewrite write_calls_buffer by (rewrite ?Hbuf0; simpl; lia).
    rewrite keep_last_length, Hbuf0. simpl. rewrite length_map. lia.
  - intros t lvl mod_ msg mt L w' l L'. subst L'. simpl.
    rewrite write_stats, bump_lookup, sum_values_bump.
    split_and!; [done | case_decide; lia | done].
  - intros L. done.
Qed.

(** *** Queries *)

Lemma filter_all {A} (P : A → Prop) `{!∀ x, Decision (P x)} (l : list A) :
  (∀ x, P x) → filter P l = l.
Proof.
  intros HP. induction l as [|x l IH]; [done|].
  rewrite filter_cons, decide_True by done. by rewrite IH.
Qed.

(** The two optional filters of [getLogs] select the entries that satisfy
    [matches]. *)
Lemma getLogs_matching lvl mod_ limit (L : K11Logger) :
  getLogs lvl mod_ limit L
  = reverse (slice_from (to_integer (neg (default (Int 200) limit)))
               (filter (matches lvl mod_) (_buffer L))).
Proof.
  unfold getLogs. do 2 f_equal.
  destruct (truthy lvl) eqn:Hl, (truthy mod_) eqn:Hm.
  - rewrite list_filter_filter. apply list_filter_iff.
    intros e. unfold matches. rewrite Hl, Hm. tauto.
  - apply list_filter_iff. intros e. unfold matches. rewrite Hl, Hm.
    split; [intros ?; split; [done | discriminate] | intros [H _]; auto].
  - apply list_filter_iff. intros e. unfold matches. rewrite Hl, Hm.
    split; [intros ?; split; [discriminate | done] | intros [_ H]; auto].
  - symmetry. apply filter_all. intros e. unfold matches. rewrite Hl, Hm.
    split; discriminate.
Qed.

(** X20.  For a limit that is absent (then 200) or a
    positive integer [n]: [getLogs] returns at most [n] entries; each of them
    is in the buffer and equals every filter that is given and not the empty
    string (an absent or empty filter does not restrict); and the result,
    read backwards, is the last [min n (number of matching entries)] of the
    matching entries of the buffer in buffer order: the most recent ones,
    newest first. *)
Theorem query_filter_limit lvl mod_ (limit : option Z) (L : K11Logger) :
  let n := default 200 limit in
  0 < n →
  let result := getLogs lvl mod_ (Int <$> limit) L in
  let matching := filter (matches lvl mod_) (_buffer L) in
  Z.of_nat (length result) ≤ n ∧
  (∀ e, e ∈ result → e ∈ _buffer L ∧ matches lvl mod_ e) ∧
  length result = (length matching `min` Z.to_nat n)%nat ∧
  reverse result = keep_last (Z.to_nat n) matching ∧
  (∃ older, matching = older ++ reverse result).
Proof.
  intros n Hn result matching.
  assert (Hres : result = reverse (keep_last (Z.to_nat n) matching)).
  { subst result matching. rewrite getLogs_matching.
    replace (to_integer (neg (default (Int 200) (Int <$> limit))))
      with (- n) by (subst n; by destruct limit).
    by rewrite slice_from_neg. }
  assert (Hlen : length result = (length matching `min` Z.to_nat n)%nat).
  { by rewrite Hres, length_reverse, keep_last_length. }
  split_and!.
  - lia.
  - intros e He. rewrite Hres, elem_of_reverse in He.
    apply subseteq_drop in He. subst matching.
    apply list_elem_of_filter in He. tauto.
  - done.
  - by rewrite Hres, reverse_involutive.
  - exists (take (length matching - Z.to_nat n) matching).
    rewrite Hres, reverse_involutive. unfold keep_last.
    by rewrite take_drop.
Qed.

(** C10.  With [limit = 0], [getLogs] returns every matching entry of the
    buffer, newest first; with [limit = -k] it returns the matching entries
    without the [k] oldest, newest first. *)
Theorem query_nonpositive_limit lvl mod_ (k : nat) (L : K11Logger) :
  let matching := filter (matches lvl mod_) (_buffer L) in
  getLogs lvl mod_ (Some (Int 0)) L = reverse matching ∧
  getLogs lvl mod_ (Some (Int (- Z.of_nat k))) L = reverse (drop k matching).
Proof.
  intros matching. subst matching. rewrite !getLogs_matching. simpl.
  split.
  - by rewrite (slice_from_nonneg 0).
  - by rewrite Z.opp_involutive, slice_from_nonneg.
Qed.

(** *** Listeners *)

Lemma emit_app (pre post : list (@Listener W)) (e : LogEntry) (w : W) :
  emit (pre ++ post) e w
  = match emit pre e w with
    | (w1, Return _) => emit post e w1
    | (w1, Throw) => (w1, Throw)
    end.
Proof.
  revert w. induction pre as [|f pre IH]; intros w; simpl; [done|].
  destruct (f e w) as [w' []]; [apply IH | done].
Qed.

(** C2, as the code has it.  [_write] updates the counters and the buffer
    and then calls [emit] without catching anything.  When the listeners
    before [f] return and [f] throws, [_write] throws to its caller, the
    listeners registered after [f] are not run (the listener state is the one
    [f] left), and the buffer and the counters are what they are after any
    call of [_write] with these arguments: the new entry is appended (and the
    oldest dropped when over capacity) and the counter of the level is
    incremented. *)
Theorem write_listener_throws t lvl mod_ msg mt (L : K11Logger) (w w1 w2 : W)
    (pre post : list (@Listener W)) (f : @Listener W) :
  let entry := make_entry t (_startTime L) lvl mod_ msg mt in
  _listeners L = pre ++ f :: post →
  emit pre entry w = (w1, Return tt) →
  f entry w1 = (w2, Throw) →
  let r := _write t lvl mod_ msg mt L w in
  r.2 = Throw ∧
  r.1.2 = w2 ∧
  _buffer r.1.1 = push_rolling entry (_buffer L) ∧
  _stats r.1.1 = bump lvl (_stats L) ∧
  (∀ w0 : W, _buffer (_write t lvl mod_ msg mt L w0).1.1 = _buffer r.1.1 ∧
             _stats (_write t lvl mod_ msg mt L w0).1.1 = _stats r.1.1).
Proof.
  intros entry Hls Hpre Hf r.
  assert (Hemit : emit (_listeners L) entry w = (w2, Throw)).
  { rewrite Hls, emit_app, Hpre. simpl. by rewrite Hf. }
  subst r. split_and!.
  - unfold Logger._write. simpl. fold entry. by rewrite Hemit.
  - unfold Logger._write. simpl. fold entry. by rewrite Hemit.
  - apply write_buffer.
  - apply write_stats.
  - intros w0. by rewrite !write_buffer, !write_stats.
Qed.

End Facts.

(** C6 (defect at [limit = 0]).  With the entries A, B and C in the
    buffer, [getLogs({limit: 0})] returns all three, newest first, where "up
    to [limit] entries" allows none: [slice(-0)] is [slice(0)]. *)
Theorem query_limit_zero_returns_all :
  let L := (write_calls (W:=unit) 2000 three_calls (new 0) tt).1 in
  map message (getLogs None None (Some (Int 0)) L) = ["C"; "B"; "A"] ∧
  ¬ (Z.of_nat (length (getLogs None None (Some (Int 0)) L)) ≤ 0).
Proof.
  split; [reflexivity |]. vm_compute. intros H. apply H. reflexivity.
Qed.

(** [query_filter_limit] for [getLogs({level: 'error', limit: 2})]. *)
Lemma query_filter_limit_witness :
  0 < default 200 (Some 2) ∧
  reverse (getLogs (Some "error") None (Int <$> Some 2)
             (write_calls (W:=unit) 2000 three_calls (new 0) tt).1)
  = keep_last (Z.to_nat (default 200 (Some 2)))
      (filter (matches (Some "error") None)
         (_buffer (write_calls (W:=unit) 2000 three_calls (new 0) tt).1)).
Proof.
  split; [simpl; lia |].
  apply (query_filter_limit (W:=unit) (Some "error") None (Some 2)
           (write_calls 2000 three_calls (new 0) tt).1).
  simpl; lia.
Defined.

(** C2 as stated fails: with a throwing listener registered before a healthy
    one, [_write] throws and the healthy listener is not notified. *)
Lemma listener_isolation_counterexample :
  let L := on recorder (on thrower (new 0)) in
  (_write 2000 tick0 "info" None "A" None L []).2 = Throw ∧
  (_write 2000 tick0 "info" None "A" None L []).1.2 = [].
Proof. split; reflexivity. Qed.

(** [write_listener_throws] with a throwing listener registered first. *)
Lemma write_listener_throws_witness :
  _listeners (on recorder (on thrower (new 0))) = [] ++ thrower :: [recorder] ∧
  (_write 2000 tick0 "info" None "A" None
     (on recorder (on thrower (new 0))) []).2 = Throw.
Proof.
  split; [reflexivity |].
  apply (write_listener_throws 2000 tick0 "info" None "A" None
           (on recorder (on thrower (new 0))) [] [] []
           [] [recorder] thrower); reflexivity.
Defined.

(** [lifetime_counts] with a capacity of two and three calls of [error]. *)
Lemma lifetime_counts_witness :
  0 ≤ 2 ∧ 0 ≤ 1 ∧ _buffer (new (W:=unit) 0) = [] ∧
  Forall (λ c, c_level c = "error") three_errors ∧
  Z.of_nat (length three_errors) = 2 + 1 ∧
  counts (getStats 5000 (write_calls (W:=unit) 2 three_errors (new 0) tt).1)
    !! "error" = Some (2 + 1).
Proof.
  assert (Hall : Forall (λ c, c_level c = "error") three_errors).
  { repeat constructor. }
  split_and!; [lia | lia | reflexivity | exact Hall | reflexivity |].
  apply (lifetime_counts (W:=unit) 2 three_errors 1 0 5000 (new 0) tt);
    [lia | lia | reflexivity | reflexivity | exact Hall | reflexivity].
Defined.

(** The scenario [info("A"), warn("B"), error("C")]: [getLogs({limit: 2})]
    returns [C, B] and [getStats().total] is 3. *)
Example scenario_query :
  let L := (write_calls (W:=unit) 2000 three_calls (new 0) tt).1 in
  map message (getLogs None None (Some (Int 2)) L) = ["C"; "B"] ∧
  ls_total (getStats 5000 L) = 3.
Proof. split; vm_compute; reflexivity. Qed.

(** [ring_bound] with a capacity of two and three calls: the entry that
    survives as the oldest is the second one inserted. *)
Lemma ring_bound_witness :
  0 < 2 ∧ _buffer (new (W:=unit) 0) = [] ∧
  2 < Z.of_nat (length three_calls) ∧
  head (_buffer (write_calls 2 three_calls (new 0) tt).1)
  = map (entry_of 0) three_calls !! 1%nat.
Proof.
  split_and!; [lia | reflexivity | simpl; lia |].
  apply (ring_bound 2 three_calls (new 0) tt); [lia | reflexivity | simpl; lia].
Defined.

End LoggerFacts.

(** ** The request tracker *)

Module TrackerFacts.

Import Logger RequestTracker JSFacts Samples.

(** The scenario with four completions: the counters and the average. *)
Example scenario_counters :
  let st := (record_all (W:=unit) 2000 four_completions (initial 0) (new 0)
               tt).1.1 in
  (total st, RequestTracker.ok st, errors4xx st, errors5xx st, slow st,
   avgLatencyMs st) = (4, 2, 1, 1, 1, 313).
Proof. vm_compute. reflexivity. Qed.

(** *** Sorting *)

Section Sort.

Context {A : Type} (cmp : A → A → Z).

Lemma insert_by_perm (x : A) (l : list A) : insert_by cmp x l ≡ₚ x :: l.
Proof.
  induction l as [|y l IH]; simpl; [done|].
  destruct (cmp x y <=? 0); [done|].
  rewrite IH. apply Permutation_swap.
Qed.

Lemma sort_perm (l : list A) : sort cmp l ≡ₚ l.
Proof.
  induction l as [|x l IH]; simpl; [done|].
  fold (sort cmp l). by rewrite insert_by_perm, IH.
Qed.

(** Insertion does not reorder the elements that satisfy [P], as long as
    [cmp] does not order two of them strictly. *)
Lemma insert_by_filter (P : A → Prop) `{!∀ x, Decision (P x)} (x : A)
    (l : list A) :
  (∀ a b, P a → P b → cmp a b <= 0) →
  filter P (insert_by cmp x l) = filter P (x :: l).
Proof.
  intros Htie. induction l as [|y l IH]; simpl; [done|].
  destruct (Z.leb_spec (cmp x y) 0) as [Hle|Hgt]; [done|].
  rewrite (filter_cons P y), IH, !filter_cons.
  destruct (decide (P x)) as [Hx|Hx], (decide (P y)) as [Hy|Hy]; try done.
  specialize (Htie x y Hx Hy). lia.
Qed.

Lemma sort_filter (P : A → Prop) `{!∀ x, Decision (P x)} (l : list A) :
  (∀ a b, P a → P b → cmp a b <= 0) →
  filter P (sort cmp l) = filter P l.
Proof.
  intros Htie. induction l as [|x l IH]; simpl; [done|].
  fold (sort cmp l). rewrite insert_by_filter by done.
  by rewrite !filter_cons, IH.
Qed.

Lemma sorted_lookup (R : relation A) (l : list A) (i j : nat) (a b : A) :
  StronglySorted R l → (i < j)%nat → l !! i = Some a → l !! j = Some b →
  R a b.
Proof.
  intros Hs. revert i j. induction Hs as [|x l Hs IH Hx]; intros i j Hij Ha Hb.
  - done.
  - destruct j as [|j]; [lia|]. simpl in Hb. destruct i as [|i]; simpl in Ha.
    + injection Ha as ->. rewrite Forall_forall in Hx. apply Hx.
      by eapply list_elem_of_lookup_2.
    + apply (IH i j); [lia | done | done].
Qed.

End Sort.

(** [a] is listed before [b] when its count is not smaller. *)
Lemma by_count_desc_le (a b : string * RouteStats) :
  by_count_desc a b <= 0 ↔ count b.2 <= count a.2.
Proof. unfold by_count_desc. lia. Qed.

Lemma insert_by_count_sorted (x : string * RouteStats)
    (l : list (string * RouteStats)) :
  StronglySorted (λ a b, count b.2 <= count a.2) l →
  StronglySorted (λ a b, count b.2 <= count a.2) (insert_by by_count_desc x l).
Proof.
  induction 1 as [|y l Hsorted IH Hy]; simpl.
  - repeat constructor.
  - destruct (Z.leb_spec (by_count_desc x y) 0) as [Hle|Hgt].
    + apply by_count_desc_le in Hle.
      constructor; [by constructor|].
      constructor; [done|].
      eapply Forall_impl; [exact Hy|]. simpl. intros; lia.
    + constructor; [done|].
      rewrite insert_by_perm. constructor; [|done].
      unfold by_count_desc in Hgt. lia.
Qed.

Lemma sort_by_count_sorted (l : list (string * RouteStats)) :
  StronglySorted (λ a b, count b.2 <= count a.2) (sort by_count_desc l).
Proof.
  induction l as [|x l IH]; simpl; [constructor|].
  by apply insert_by_count_sorted.
Qed.

(** *** The routes of reachable states *)

Lemma get_route_None (r : string) (m : list (string * RouteStats)) :
  get_route r m = None ↔ r ∉ map fst m.
Proof.
  induction m as [|[k v] m IH]; simpl.
  - split; [intros _; apply not_elem_of_nil | done].
  - rewrite not_elem_of_cons. destruct (decide (k = r)) as [->|Hne].
    + split; [done | tauto].
    + rewrite IH. split; [intros ?; split; [congruence | done] | tauto].
Qed.

Lemma alter_route_keys f (r : string) (m : list (string * RouteStats)) :
  map fst (alter_route f r m) = map fst m.
Proof.
  unfold alter_route. rewrite map_map. apply map_ext.
  intros [k v]. simpl. by destruct (decide (k = r)).
Qed.

Lemma update_stats_routes_ok r status x (st : Stats) :
  routes_ok (byRoute st) → routes_ok (byRoute (update_stats r status x st)).
Proof.
  intros [Hnd Hcnt]. unfold routes_ok. simpl.
  rewrite alter_route_keys. unfold ensure_route.
  destruct (get_route r (byRoute st)) as [v|] eqn:Hget.
  - split; [done|]. unfold alter_route. rewrite Forall_map.
    eapply Forall_impl; [exact Hcnt|]. intros [k v'] Hk. simpl in *.
    destruct (decide (k = r)); simpl; lia.
  - apply get_route_None in Hget. split.
    + rewrite map_app. simpl. apply NoDup_app. split_and!; [done | |].
      * intros k Hk Hin. apply list_elem_of_singleton in Hin. by subst.
      * apply NoDup_singleton.
    + unfold alter_route. rewrite Forall_map. apply Forall_app. split.
      * eapply Forall_impl; [exact Hcnt|]. intros [k v'] Hk. simpl in *.
        destruct (decide (k = r)); simpl; lia.
      * apply Forall_singleton. simpl. rewrite decide_True by done.
        simpl. lia.
Qed.

(** C7 (top routes).  In every state, the snapshot that
    [requestTracker.getStats()] returns carries the counters as they are, the
    uptime, and in [topRoutes] the first (at most) ten entries of [byRoute]
    sorted by count: the sorted list is a permutation of [byRoute], in
    descending order of count, and routes with equal counts keep the order in
    which their keys were inserted; so no route left out has a higher count
    than a route that is listed.  Each element reports the route with its
    [count], its [errors] and [avgMs = round(totalMs / count)]. *)
Theorem top_routes (now_ : Z) (st : Stats) :
  let snap := RequestTracker.getStats now_ st in
  let sorted := sort by_count_desc (byRoute st) in
  stats snap = st ∧
  uptimeMs snap = now_ - startTime st ∧
  snap_topRoutes snap = map top_of (take 10 sorted) ∧
  length (snap_topRoutes snap) = (length (byRoute st) `min` 10)%nat ∧
  sorted ≡ₚ byRoute st ∧
  StronglySorted (λ a b, count b.2 <= count a.2) sorted ∧
  (∀ c : Z, filter (λ kv, count kv.2 = c) sorted
            = filter (λ kv, count kv.2 = c) (byRoute st)) ∧
  (∀ i j a b, (i < j)%nat → sorted !! i = Some a → sorted !! j = Some b →
              count b.2 <= count a.2) ∧
  (∀ i kv, take 10 sorted !! i = Some kv →
           snap_topRoutes snap !! i
           = Some {| route := kv.1;
                     tr_count := count kv.2;
                     avgMs := Math_round
                                (totalMs kv.2 / inject_Z (count kv.2))%Q;
                     tr_errors := errors kv.2 |}).
Proof.
  intros snap sorted.
  assert (Htop : snap_topRoutes snap = map top_of (take 10 sorted)).
  { subst snap. unfold RequestTracker.getStats. cbn [snap_topRoutes].
    unfold topRoutes. by rewrite (slice_prefix 10). }
  assert (Hperm : sorted ≡ₚ byRoute st) by apply sort_perm.
  assert (Hsorted : StronglySorted (λ a b, count b.2 <= count a.2) sorted)
    by apply sort_by_count_sorted.
  split_and!.
  - done.
  - done.
  - done.
  - rewrite Htop, length_map, length_take, Hperm. lia.
  - done.
  - done.
  - intros c. apply sort_filter. intros a b Ha Hb.
    unfold by_count_desc. lia.
  - intros i j a b Hij Ha Hb.
    by apply (sorted_lookup _ sorted i j a b Hsorted).
  - intros i kv Hi. rewrite Htop, list_lookup_fmap, Hi. done.
Qed.

(** The snapshot after the four completions of the scenario: the route
    requested twice comes first, the two routes requested once follow in the
    order of their first request. *)
Example scenario_top_routes :
  snap_topRoutes
    (RequestTracker.getStats 9000
       (record_all (W:=unit) 2000 four_completions (initial 0) (new 0) tt).1.1)
  = [ {| route := "GET /a"; tr_count := 2; avgMs := 150; tr_errors := 0 |};
      {| route := "GET /b"; tr_count := 1; avgMs := 50; tr_errors := 1 |};
      {| route := "GET /c"; tr_count := 1; avgMs := 900; tr_errors := 1 |} ].
Proof. vm_compute. reflexivity. Qed.

(** *** Rounding *)

Lemma Math_round_bounds (y : Q) :
  (inject_Z (Math_round y) - (1 # 2) <= y
   ∧ y < inject_Z (Math_round y) + (1 # 2))%Q.
Proof.
  unfold Math_round.
  pose proof (Qfloor_le (y + (1 # 2))) as H1.
  pose proof (Qlt_floor (y + (1 # 2))) as H2.
  rewrite inject_Z_plus in H2. change (inject_Z 1) with 1%Q in H2.
  set (f := inject_Z (Qfloor (y + (1 # 2)))) in *.
  split; lra.
Qed.

(** One update of the rounded mean moves [total * avg - sum] by at most
    [total / 2]. *)
Lemma round_step (N A x S B : Q) (a' : Z) :
  (0 <= N)%Q →
  a' = Math_round ((A * N + x) / (N + 1)) →
  (- B <= N * A - S ∧ N * A - S <= B)%Q →
  (- (B + (N + 1) * (1 # 2)) <= (N + 1) * inject_Z a' - (S + x)
   ∧ (N + 1) * inject_Z a' - (S + x) <= B + (N + 1) * (1 # 2))%Q.
Proof.
  intros HN -> HB.
  set (y := ((A * N + x) / (N + 1))%Q).
  assert (Hy : (y * (N + 1) == A * N + x)%Q).
  { unfold y. field. lra. }
  destruct (Math_round_bounds y) as [H1 H2].
  set (r := inject_Z (Math_round y)) in *.
  clearbody r. clearbody y.
  assert (P1 : (0 <= (N + 1) * ((1 # 2) - (r - y)))%Q).
  { apply Qmult_le_0_compat; lra. }
  assert (P2 : (0 <= (N + 1) * ((r - y) + (1 # 2)))%Q).
  { apply Qmult_le_0_compat; lra. }
  split; nra.
Qed.

Lemma sumQ_snoc (xs : list Q) (x : Q) :
  (sumQ (xs ++ [x]) == sumQ xs + x)%Q.
Proof.
  unfold sumQ. induction xs as [|y xs IH]; simpl.
  - ring.
  - rewrite IH. ring.
Qed.

(** The bound on [total * avg - sum] after [n] updates. *)
Lemma drift_bound_step (n : Z) :
  (inject_Z (n * (n + 1)) * (1 # 4) + (inject_Z n + 1) * (1 # 2)
   == inject_Z ((n + 1) * (n + 1 + 1)) * (1 # 4))%Q.
Proof.
  rewrite !inject_Z_mult, !inject_Z_plus. change (inject_Z 1) with 1%Q. ring.
Qed.

Section Facts.

Context {W : Type}.
Variable MAX_LINES : Z.

Abbreviation recordCompletion := (@recordCompletion W MAX_LINES).
Abbreviation record := (@record W MAX_LINES).
Abbreviation record_all := (@record_all W MAX_LINES).

Lemma recordCompletion_stats t method path status elapsedMs st
    (L : @K11Logger W) (w : W) :
  (recordCompletion t method path status elapsedMs st L w).1.1.1
  = update_stats (method +:+ " " +:+ path) status elapsedMs st.
Proof.
  unfold RequestTracker.recordCompletion.
  destruct (Qgt_bool elapsedMs SLOW_THRESHOLD_MS).
  - by destruct (warn _ _ _ _ _ _ _) as [[? ?] ?].
  - destruct (status >=? 500); [|done].
    by destruct (error _ _ _ _ _ _ _) as [[? ?] ?].
Qed.

Lemma record_all_snoc cs c st (L : @K11Logger W) (w : W) :
  record_all (cs ++ [c]) st L w
  = (record c (record_all cs st L w).1.1 (record_all cs st L w).1.2
       (record_all cs st L w).2).1.
Proof. unfold RequestTracker.record_all. by rewrite foldl_app. Qed.

Lemma record_all_snoc_stats cs c st (L : @K11Logger W) (w : W) :
  (record_all (cs ++ [c]) st L w).1.1
  = update_stats (route_of c) (r_status c) (r_elapsedMs c)
      (record_all cs st L w).1.1.
Proof.
  rewrite record_all_snoc. unfold RequestTracker.record.
  apply recordCompletion_stats.
Qed.

(** After [n] completions, [total] is [n] and [n * avgLatencyMs] is within
    [n (n + 1) / 4] of the sum of the latencies. *)
Lemma drift_invariant cs t0 (L : @K11Logger W) (w : W) :
  let st := (record_all cs (initial t0) L w).1.1 in
  let n := Z.of_nat (length cs) in
  let d := (inject_Z n * inject_Z (avgLatencyMs st)
            - sumQ (map r_elapsedMs cs))%Q in
  total st = n ∧
  (- (inject_Z (n * (n + 1)) * (1 # 4)) <= d
   ∧ d <= inject_Z (n * (n + 1)) * (1 # 4))%Q.
Proof.
  induction cs as [|c cs IH] using rev_ind.
  - simpl. split; [done|]. vm_compute. split; discriminate.
  - simpl in IH. destruct IH as [Htot IH].
    cbv zeta. rewrite record_all_snoc_stats.
    set (st := (record_all cs (initial t0) L w).1.1) in *.
    set (n := Z.of_nat (length cs)) in *.
    rewrite length_app, map_app. simpl.
    replace (Z.of_nat (length cs + 1)) with (n + 1) by lia.
    split; [lia|].
    rewrite sumQ_snoc, <- drift_bound_step, inject_Z_plus.
    change (inject_Z 1) with 1%Q.
    apply (round_step (inject_Z n) (inject_Z (avgLatencyMs st)));
      [| |exact IH].
    + change 0%Q with (inject_Z 0). rewrite <- Zle_Qle. lia.
    + rewrite Htot. replace (n + 1 - 1) with n by lia.
      by rewrite inject_Z_plus.
Qed.

(** In the states reached from the initial one every route key is distinct
    and has a positive count, so [totalMs / count] in [topRoutes] never
    divides by zero. *)
Lemma record_all_routes_ok cs t0 (L : @K11Logger W) (w : W) :
  routes_ok (byRoute (record_all cs (initial t0) L w).1.1).
Proof.
  induction cs as [|c cs IH] using rev_ind.
  - split; [apply NoDup_nil_2 | apply Forall_nil_2].
  - rewrite record_all_snoc_stats. by apply update_stats_routes_ok.
Qed.

(** C3, as the code has it.  Every completion sets [avgLatencyMs] to
    [round((oldAvg * (total - 1) + elapsedMs) / total)], with [total] already
    incremented.  Starting from the initial counters, after [n >= 1]
    completions [total] is [n] and the reported average differs from the
    directly computed mean of the [n] latencies by at most [(n + 1) / 4]
    milliseconds (hence by at most [n]): the rounding errors of the steps add
    up, so the distance is not bounded by one millisecond. *)
Theorem running_mean (cs : list Completion) (t0 : Z) (L : @K11Logger W)
    (w : W) :
  cs ≠ [] →
  let st := (record_all cs (initial t0) L w).1.1 in
  let n := Z.of_nat (length cs) in
  let m := mean (map r_elapsedMs cs) in
  total st = n ∧
  (Qabs (inject_Z (avgLatencyMs st) - m) <= inject_Z (n + 1) * (1 # 4))%Q ∧
  (Qabs (inject_Z (avgLatencyMs st) - m) <= inject_Z n)%Q ∧
  (∀ c st0 (L0 : @K11Logger W) (w0 : W),
     let st1 := (record c st0 L0 w0).1.1.1 in
     total st1 = total st0 + 1 ∧
     avgLatencyMs st1
     = Math_round ((inject_Z (avgLatencyMs st0) * inject_Z (total st1 - 1)
                    + r_elapsedMs c) / inject_Z (total st1))%Q).
Proof.
  intros Hne st n m.
  destruct (drift_invariant cs t0 L w) as [Htot [Hlo Hhi]].
  fold st n in Htot, Hlo, Hhi.
  assert (Hn : 1 ≤ n) by (subst n; destruct cs; [done | simpl; lia]).
  assert (HnQ : (1 <= inject_Z n)%Q).
  { change 1%Q with (inject_Z 1). by rewrite <- Zle_Qle. }
  assert (Hm : (m * inject_Z n == sumQ (map r_elapsedMs cs))%Q).
  { subst m. unfold mean. rewrite length_map. fold n. field. lra. }
  rewrite inject_Z_mult, inject_Z_plus in Hlo, Hhi.
  change (inject_Z 1) with 1%Q in Hlo, Hhi.
  assert (Hsharp : (Qabs (inject_Z (avgLatencyMs st) - m)
                    <= inject_Z (n + 1) * (1 # 4))%Q).
  { rewrite inject_Z_plus. change (inject_Z 1) with 1%Q.
    apply Qabs_Qle_condition.
    set (N := inject_Z n) in *. set (a := inject_Z (avgLatencyMs st)) in *.
    set (S := sumQ (map r_elapsedMs cs)) in *.
    clearbody N a S m.
    assert (H0 : (0 < N)%Q) by lra.
    split.
    - apply (Qmult_le_l _ _ N H0). nra.
    - apply (Qmult_le_l _ _ N H0). nra. }
  split_and!.
  - done.
  - done.
  - eapply Qle_trans; [exact Hsharp|].
    rewrite inject_Z_plus. change (inject_Z 1) with 1%Q. lra.
  - intros c st0 L0 w0 st1. subst st1. unfold RequestTracker.record.
    rewrite recordCompletion_stats. done.
Qed.

(** The listed logger call of a completion, by cases. *)
Lemma recordCompletion_logger t method path status elapsedMs st
    (L : @K11Logger W) (w : W) :
  let route := method +:+ " " +:+ path in
  (recordCompletion t method path status elapsedMs st L w).1.1.2
  = if Qgt_bool elapsedMs SLOW_THRESHOLD_MS then
      (warn MAX_LINES t (Some "REQUEST") ("Lento: " +:+ route)
         (Some [("ms", MNum (Math_round elapsedMs)); ("status", MNum status)])
         L w).1.1
    else if status >=? 500 then
      (error MAX_LINES t (Some "REQUEST")
         ("Erro " +:+ pretty status +:+ ": " +:+ route)
         (Some [("ms", MNum (Math_round elapsedMs))]) L w).1.1
    else L.
Proof.
  unfold RequestTracker.recordCompletion. cbv zeta.
  destruct (Qgt_bool elapsedMs SLOW_THRESHOLD_MS).
  - by destruct (warn _ _ _ _ _ _ _) as [[? ?] ?].
  - destruct (status >=? 500); [|done].
    by destruct (error _ _ _ _ _ _ _) as [[? ?] ?].
Qed.

Lemma Qgt_bool_spec (x y : Q) : Qgt_bool x y = true ↔ (y < x)%Q.
Proof.
  unfold Qgt_bool. rewrite negb_true_iff, <- not_true_iff_false, Qle_bool_iff.
  split; [apply Qnot_le_lt | apply Qlt_not_le].
Qed.

(** C1, as the code has it.  A completion with status [>= 500] makes
    exactly one call of the logger.  When [elapsedMs] is at most 500 it is
    [error('REQUEST', ...)]: one entry of level [error] is appended and the
    [error] counter grows by one.  When [elapsedMs] exceeds 500 it is
    [warn('REQUEST', 'Lento: ...', {ms, status})]: one entry of level [warn]
    carrying the status is appended, the [warn] counter grows by one and the
    [error] counter does not change. *)
Theorem completion_logging t method path status elapsedMs st
    (L : @K11Logger W) (w : W) :
  500 ≤ status →
  let route := method +:+ " " +:+ path in
  let L' := (recordCompletion t method path status elapsedMs st L w).1.1.2 in
  let slow_ := Qgt_bool elapsedMs SLOW_THRESHOLD_MS in
  let ms := MNum (Math_round elapsedMs) in
  let entry :=
    if slow_ then
      make_entry t (_startTime L) "warn" (Some "REQUEST")
        ("Lento: " +:+ route) (Some [("ms", ms); ("status", MNum status)])
    else
      make_entry t (_startTime L) "error" (Some "REQUEST")
        ("Erro " +:+ pretty status +:+ ": " +:+ route) (Some [("ms", ms)]) in
  (slow_ = true ↔ (500 < elapsedMs)%Q) ∧
  level entry = (if slow_ then "warn" else "error") ∧
  _buffer L' = push_rolling MAX_LINES entry (_buffer L) ∧
  default 0 (_stats L' !! "error")
  = default 0 (_stats L !! "error") + (if slow_ then 0 else 1) ∧
  default 0 (_stats L' !! "warn")
  = default 0 (_stats L !! "warn") + (if slow_ then 1 else 0).
Proof.
  intros Hst route L' slow_ ms entry.
  assert (Hge : (status >=? 500) = true) by (apply Z.geb_le; lia).
  subst L'. rewrite recordCompletion_logger. cbv zeta. fold route slow_.
  rewrite Hge. subst entry.
  split; [apply Qgt_bool_spec|].
  unfold warn, error.
  destruct slow_.
  - rewrite LoggerFacts.write_buffer, LoggerFacts.write_stats,
      !LoggerFacts.bump_lookup.
    split_and!; done.
  - rewrite LoggerFacts.write_buffer, LoggerFacts.write_stats,
      !LoggerFacts.bump_lookup.
    split_and!; done.
Qed.

End Facts.

(** C1 as stated fails: a request answered with status 500 after 900 ms
    produces the [warn] entry only; no entry of level [error] is in the
    buffer and the [error] counter is still zero. *)
Lemma slow_error_counterexample :
  let L' := (recordCompletion (W:=unit) 2000 tick0 "GET" "/c" 500 900
               (initial 0) (new 0) tt).1.1.2 in
  map level (_buffer L') = ["warn"] ∧ _stats L' !! "error" = Some 0.
Proof. split; reflexivity. Qed.

(** [completion_logging] for a fast request answered with status 503. *)
Lemma completion_logging_witness :
  500 ≤ 503 ∧
  map level (_buffer (recordCompletion (W:=unit) 2000 tick0 "GET" "/c" 503 20
                        (initial 0) (new 0) tt).1.1.2) = ["error"].
Proof.
  split; [lia |].
  assert (H500 : 500 ≤ 503) by lia.
  pose proof (completion_logging (W:=unit) 2000 tick0 "GET" "/c" 503 20
                (initial 0) (new 0) tt H500) as H.
  cbv zeta in H. destruct H as (_ & _ & Hbuf & _).
  rewrite Hbuf. reflexivity.
Defined.

(** C3 as stated fails: after four completions with latencies 0.5, 2, 3.5
    and 5 ms the reported average (4) is more than one millisecond away from
    the directly computed mean (2.75). *)
Lemma running_mean_counterexample :
  ¬ (Qabs (inject_Z (avgLatencyMs
             (record_all (W:=unit) 2000 drifting_completions (initial 0)
                (new 0) tt).1.1)
           - mean (map r_elapsedMs drifting_completions))
     <= 1)%Q.
Proof. vm_compute. intros H. apply H. reflexivity. Qed.

(** The drift can exceed one millisecond: after these four completions the
    reported average is 4 and the mean is 2.75. *)
Example drift_exceeds_one :
  let st := (record_all (W:=unit) 2000 drifting_completions (initial 0)
               (new 0) tt).1.1 in
  avgLatencyMs st = 4 ∧
  (mean (map r_elapsedMs drifting_completions) == 11 # 4)%Q.
Proof. split; reflexivity. Qed.

(** [running_mean] on the four drifting completions: the distance to the
    mean, 1.25 ms, is within [(4 + 1) / 4] ms. *)
Lemma running_mean_witness :
  drifting_completions ≠ [] ∧
  total (record_all (W:=unit) 2000 drifting_completions (initial 0) (new 0)
           tt).1.1 = 4 ∧
  (Qabs (inject_Z (avgLatencyMs
           (record_all (W:=unit) 2000 drifting_completions (initial 0) (new 0)
              tt).1.1)
         - mean (map r_elapsedMs drifting_completions))
   <= inject_Z (Z.of_nat (length drifting_completions) + 1) * (1 # 4))%Q.
Proof.
  assert (Hne : drifting_completions ≠ []) by discriminate.
  pose proof (running_mean (W:=unit) 2000 drifting_completions 0 (new 0) tt
                Hne) as H.
  cbv zeta in H. destruct H as (Htot & Hsharp & _).
  split_and!; [exact Hne | exact Htot | exact Hsharp].
Defined.

End TrackerFacts.

(** ** The log stream *)

Module SystemFacts.

Import Logger System JSFacts Samples.

(** *** Fan-out *)

Lemma try_write_spec (m : Msg) (s : Sse) (r : Res) :
  try_write m s r
  = {| _sseClients := if decide (r ∈ broken s)
                      then filter (λ x, x ≠ r) (_sseClients s)
                      else _sseClients s;
       broken := broken s;
       trace := trace s ++ [fanout_event m (broken s) r] |}.
Proof.
  unfold try_write, res_write, fanout_event.
  destruct (decide (r ∈ broken s)); done.
Qed.

Lemma fanout_spec (m : Msg) (l : list Res) (s : Sse) :
  foldl (try_write m) s l
  = {| _sseClients := filter (λ x, ¬ (x ∈ broken s ∧ x ∈ l)) (_sseClients s);
       broken := broken s;
       trace := trace s ++ map (fanout_event m (broken s)) l |}.
Proof.
  revert s. induction l as [|r l IH]; intros s.
  - simpl. destruct s as [cl bad tr]. simpl. f_equal.
    + symmetry. apply LoggerFacts.filter_all. intros x [_ Hx].
      by apply not_elem_of_nil in Hx.
    + by rewrite app_nil_r.
  - simpl. rewrite IH, try_write_spec. simpl. f_equal.
    + destruct (decide (r ∈ broken s)) as [Hr|Hr].
      * rewrite list_filter_filter. apply list_filter_iff. intros x.
        rewrite elem_of_cons. split.
        -- intros [Hn Hx] [Hb [->|Hl]]; tauto.
        -- intros Hx. split; [tauto|]. intros ->. tauto.
      * apply list_filter_iff. intros x. rewrite elem_of_cons. split.
        -- intros Hx [Hb [->|Hl]]; tauto.
        -- tauto.
    + by rewrite <- app_assoc.
Qed.

Lemma filter_self `{!EqDecision A} (P : A → Prop) `{!∀ x, Decision (P x)}
    (l : list A) :
  filter (λ x, ¬ (P x ∧ x ∈ l)) l = filter (λ x, ¬ P x) l.
Proof.
  assert (Hsub : ∀ k : list A, (∀ x, x ∈ k → x ∈ l) →
                   filter (λ x, ¬ (P x ∧ x ∈ l)) k = filter (λ x, ¬ P x) k).
  { induction k as [|y k IH]; intros Hk; [done|].
    rewrite !filter_cons.
    assert (Hy : y ∈ l) by (apply Hk; left).
    rewrite IH by (intros x Hx; apply Hk; by right).
    destruct (decide (¬ P y)) as [Hn|Hn].
    - rewrite decide_True by tauto. done.
    - rewrite decide_False; [done|]. intros Hc. apply Hn. intros Hp. tauto. }
  by apply Hsub.
Qed.

(** The state after the listener has handled [entry]. *)
Lemma broadcast_spec (entry : LogEntry) (s : Sse) :
  broadcast entry s
  = ({| _sseClients := filter (λ x, x ∉ broken s) (_sseClients s);
        broken := broken s;
        trace := trace s
                 ++ map (fanout_event (Data entry) (broken s)) (_sseClients s) |},
     Return tt).
Proof.
  unfold broadcast. rewrite fanout_spec. do 2 f_equal.
  apply (filter_self (λ x, x ∈ broken s)).
Qed.

(** C9 (fan-out isolation).  When a new entry is broadcast, the listener
    itself returns normally; every client of the set whose write throws is
    removed from the set and is not written to; every other client of the set
    is written the entry and stays in the set, wherever it stands in the set
    relative to the failing ones.  Nothing else happens. *)
Theorem fanout_isolation (entry : LogEntry) (s : Sse) :
  let s' := (broadcast entry s).1 in
  let new_events := map (fanout_event (Data entry) (broken s)) (_sseClients s) in
  (broadcast entry s).2 = Return tt ∧
  trace s' = trace s ++ new_events ∧
  _sseClients s' = filter (λ x, x ∉ broken s) (_sseClients s) ∧
  (∀ x, x ∈ _sseClients s → x ∈ broken s →
        (x ∉ _sseClients s') ∧ Deleted x ∈ new_events
        ∧ (Wrote x (Data entry) ∉ new_events)) ∧
  (∀ y, y ∈ _sseClients s → y ∉ broken s →
        y ∈ _sseClients s' ∧ Wrote y (Data entry) ∈ new_events
        ∧ (Deleted y ∉ new_events)).
Proof.
  intros s' new_events. subst s'. rewrite broadcast_spec. simpl.
  split_and!; [done | done | done | |].
  - intros x Hx Hb. split_and!.
    + rewrite list_elem_of_filter. tauto.
    + subst new_events. apply list_elem_of_fmap. exists x.
      unfold fanout_event. by rewrite decide_True.
    + subst new_events. rewrite list_elem_of_fmap. intros [z [Hz _]].
      unfold fanout_event in Hz. destruct (decide (z ∈ broken s)); [done|].
      congruence.
  - intros y Hy Hb. split_and!.
    + rewrite list_elem_of_filter. tauto.
    + subst new_events. apply list_elem_of_fmap. exists y.
      unfold fanout_event. by rewrite decide_False.
    + subst new_events. rewrite list_elem_of_fmap. intros [z [Hz _]].
      unfold fanout_event in Hz. destruct (decide (z ∈ broken s)); [|done].
      congruence.
Qed.

(** [fanout_isolation] with a failing client ahead of a healthy one: the
    healthy one stays in the set. *)
Lemma fanout_isolation_witness :
  2%nat ∈ _sseClients (broadcast (entry_of 0 (mkCall tick0 "info" None "A" None))
                         two_clients).1.
Proof.
  destruct (fanout_isolation (entry_of 0 (mkCall tick0 "info" None "A" None))
              two_clients) as (_ & _ & _ & _ & Hy).
  apply (Hy 2%nat).
  - by apply list_elem_of_lookup_2 with 1%nat.
  - simpl. intros H. apply elem_of_singleton in H. discriminate.
Defined.

(** *** Subscription *)

Lemma write_all_ok (r : Res) (ms : list Msg) (s : Sse) :
  r ∉ broken s →
  write_all r ms s
  = ({| _sseClients := _sseClients s;
        broken := broken s;
        trace := trace s ++ map (Wrote r) ms |}, Return tt).
Proof.
  revert s. induction ms as [|m ms IH]; intros s Hr; simpl.
  - destruct s. simpl. by rewrite app_nil_r.
  - unfold res_write. rewrite decide_False by done.
    rewrite IH by done. simpl. by rewrite <- app_assoc.
Qed.

Lemma recent_spec {W} (L : @K11Logger W) :
  reverse (getLogs None None (Some (Int 50)) L) = keep_last 50 (_buffer L).
Proof.
  rewrite LoggerFacts.getLogs_unfiltered by lia.
  by rewrite reverse_involutive.
Qed.

Section Stream.

Variable MAX_LINES : Z.

(** C8 (subscription).  Let the response [r] be writable and let the
    broadcast listener be the one listener of the logger, as in the server.
    Then the handler of [GET /stream] returns, and what it does to the
    clients is, in this order: it writes the connection acknowledgement to
    [r]; it writes to [r] the last [min(50, bufferSize)] entries of the
    buffer, oldest first; it adds [r] to [_sseClients]; and it logs the
    connection, which is broadcast to the clients of the set, [r] included. *)
Theorem stream_handshake (conn_ts : string) (t : Tick) (r : Res)
    (L : @K11Logger Sse) (s : Sse) :
  r ∉ broken s →
  _listeners L = [broadcast] →
  let res := stream MAX_LINES conn_ts t r L s in
  let replay := keep_last 50 (_buffer L) in
  let clients := if decide (r ∈ _sseClients s) then _sseClients s
                 else _sseClients s ++ [r] in
  let entry := make_entry t (_startTime L) "info" (Some "SSE")
                 (connected_message (length clients)) None in
  res.2 = Return tt ∧
  recent L = replay ∧
  length replay = (length (_buffer L) `min` 50)%nat ∧
  trace res.1.2
  = trace s ++ [Wrote r (Connected conn_ts)]
      ++ map (λ e, Wrote r (Data e)) replay
      ++ [Added r]
      ++ map (fanout_event (Data entry) (broken s)) clients ∧
  r ∈ _sseClients res.1.2.
Proof.
  intros Hr Hls res replay clients entry.
  assert (Hrecent : recent L = replay) by apply recent_spec.
  assert (Hres : res
    = ({| _buffer := push_rolling MAX_LINES entry (_buffer L);
          _stats := bump "info" (_stats L);
          _startTime := _startTime L;
          _listeners := _listeners L |},
       {| _sseClients := filter (λ x, x ∉ broken s) clients;
          broken := broken s;
          trace := ((trace s ++ [Wrote r (Connected conn_ts)])
                    ++ map (Wrote r) (map Data replay) ++ [Added r])
                   ++ map (fanout_event (Data entry) (broken s)) clients |},
       Return tt)).
  { subst res. unfold stream, res_write. rewrite decide_False by done.
    rewrite write_all_ok by done. rewrite Hrecent.
    unfold info, _write. cbn [_listeners]. rewrite Hls.
    cbn [emit].
    rewrite broadcast_spec. simpl. fold clients entry.
    by rewrite <- (app_assoc _ _ [Added r]). }
  rewrite Hres. simpl. split_and!.
  - done.
  - done.
  - subst replay. by rewrite LoggerFacts.keep_last_length.
  - rewrite <- !app_assoc. simpl. do 2 f_equal.
    by rewrite map_map.
  - apply list_elem_of_filter. split; [done|].
    subst clients. case_decide; [done|].
    apply elem_of_app. right. by apply list_elem_of_singleton.
Qed.

End Stream.

(** The server at the time of the subscription below: fifty-two entries
    were logged, client 2 is connected. *)
Example busy_server :
  length (_buffer busy_logger) = 52%nat ∧
  _listeners busy_logger = [broadcast] ∧
  _sseClients busy_clients = [2%nat] ∧
  broken busy_clients = {[1%nat]}.
Proof. split_and!; vm_compute; reflexivity. Qed.

(** [stream_handshake] on that server, for a new client 5: the
    acknowledgement, then the last fifty of the fifty-two entries, oldest
    first, then the addition to the set, then the connection entry, which
    goes to client 2 and to the new client. *)
Lemma stream_handshake_witness :
  (5%nat ∉ broken busy_clients) ∧
  _listeners busy_logger = [broadcast] ∧
  let res := stream 2000 "c" tick0 5%nat busy_logger busy_clients in
  let replay := keep_last 50 (_buffer busy_logger) in
  let entry := make_entry tick0 (_startTime busy_logger) "info" (Some "SSE")
                 (connected_message 2) None in
  res.2 = Return tt ∧
  recent busy_logger = replay ∧
  length replay = 50%nat ∧
  trace res.1.2
  = trace busy_clients ++ [Wrote 5%nat (Connected "c")]
      ++ map (λ e, Wrote 5%nat (Data e)) replay
      ++ [Added 5%nat]
      ++ [Wrote 2%nat (Data entry); Wrote 5%nat (Data entry)] ∧
  5%nat ∈ _sseClients res.1.2.
Proof.
  assert (H5 : 5%nat ∉ broken busy_clients).
  { destruct busy_server as (_ & _ & _ & ->).
    intros H. apply elem_of_singleton in H. discriminate. }
  assert (Hls : _listeners busy_logger = [broadcast]) by apply busy_server.
  split_and!; [exact H5 | exact Hls |].
  pose proof (stream_handshake 2000 "c" tick0 5%nat busy_logger busy_clients
                H5 Hls) as H.
  cbv zeta in H. destruct H as (Hret & Hrecent & Hlen & Htrace & Hin).
  cbv zeta. split_and!.
  - exact Hret.
  - exact Hrecent.
  - rewrite Hlen. destruct busy_server as (-> & _). reflexivity.
  - rewrite Htrace. destruct busy_server as (_ & _ & -> & ->). reflexivity.
  - exact Hin.
Defined.

(** What the new client has been written when the handler returns: the
    acknowledgement, the entries 2 to 51 in this order, and the entry of its
    own connection. *)
Example stream_handshake_order :
  let res := stream 2000 "c" tick0 5%nat busy_logger busy_clients in
  omap (λ ev, match ev with
              | Wrote 5%nat (Connected c) => Some ("connected " +:+ c)
              | Wrote 5%nat (Data e) => Some (message e)
              | _ => None
              end) (trace res.1.2)
  = ["connected c"] ++ map (λ i : nat, pretty i) (seq 2 50)
      ++ ["Cliente conectado (total: 2)"].
Proof. vm_compute. reflexivity. Qed.

End SystemFacts.

(** ** More on the event log *)

Module LoggerExtra.

Import Logger JSFacts Samples LoggerFacts.

Section Facts.

Context {W : Type}.
Variable MAX_LINES : Z.

Abbreviation K11Logger := (@K11Logger W).
Abbreviation _write := (@_write W MAX_LINES).
Abbreviation write_calls := (@write_calls W MAX_LINES).
Abbreviation push_rolling := (push_rolling MAX_LINES).

(** X1.  The buffer never holds more than [MAX_LINES] entries, and nothing is
    evicted before it is full: from a buffer within the capacity, after any
    calls of [_write] the buffer holds [min(old + n, MAX_LINES)] entries, and
    while [old + n] does not exceed [MAX_LINES] it is the old buffer followed
    by every inserted entry. *)
Theorem buffer_bounded (cs : list Call) (L : K11Logger) (w : W) :
  0 ≤ MAX_LINES →
  Z.of_nat (length (_buffer L)) ≤ MAX_LINES →
  let L' := (write_calls cs L w).1 in
  Z.of_nat (length (_buffer L')) ≤ MAX_LINES ∧
  Z.of_nat (length (_buffer L'))
  = Z.of_nat (length (_buffer L) + length cs) `min` MAX_LINES ∧
  (Z.of_nat (length (_buffer L) + length cs) ≤ MAX_LINES →
   _buffer L' = _buffer L ++ map (entry_of (_startTime L)) cs).
Proof.
  intros H0 Hlen L'. subst L'.
  rewrite write_calls_buffer by lia.
  rewrite keep_last_length, length_app, length_map.
  split_and!; [lia | lia |].
  intros Hfit. unfold keep_last. rewrite length_app, length_map.
  by replace (length (_buffer L) + length cs - Z.to_nat MAX_LINES)%nat
    with 0%nat by lia.
Qed.

Lemma push_rolling_no_capacity (e : LogEntry) :
  MAX_LINES ≤ 0 → push_rolling e [] = [].
Proof.
  intros Hmax. unfold Logger.push_rolling. simpl.
  destruct (Z.gtb_spec (Z.of_nat 1) MAX_LINES); [reflexivity | lia].
Qed.

Lemma write_calls_total (cs : list Call) (L : K11Logger) (w : W) :
  sum_values (_stats (write_calls cs L w).1)
  = sum_values (_stats L) + Z.of_nat (length cs).
Proof.
  induction cs as [|c cs IH] using rev_ind; [simpl; lia|].
  rewrite write_calls_snoc. unfold Logger.write_call.
  rewrite write_stats, sum_values_bump, IH, length_app. simpl. lia.
Qed.

(** X2.  With a capacity of zero or less (as [LOG_MAX_LINES=0] gives) the log
    keeps nothing: every entry is dropped by the call that appends it, so the
    buffer stays empty and [getLogs] returns no entry, while the counters
    still count the calls. *)
Theorem no_capacity_keeps_nothing (cs : list Call) (L : K11Logger) (w : W)
    lvl mod_ limit (now_ : Z) :
  MAX_LINES ≤ 0 →
  _buffer L = [] →
  let L' := (write_calls cs L w).1 in
  _buffer L' = [] ∧
  getLogs lvl mod_ limit L' = [] ∧
  ls_total (getStats now_ L')
  = ls_total (getStats now_ L) + Z.of_nat (length cs).
Proof.
  intros Hmax Hbuf L'.
  assert (Hempty : _buffer L' = []).
  { subst L'. induction cs as [|c cs IH] using rev_ind; [done|].
    rewrite write_calls_snoc. unfold Logger.write_call.
    rewrite write_buffer, IH. by apply push_rolling_no_capacity. }
  split_and!.
  - done.
  - rewrite getLogs_matching, Hempty. unfold slice_from.
    by rewrite filter_nil, drop_nil.
  - subst L'. simpl. apply write_calls_total.
Qed.

Lemma push_rolling_last (e : LogEntry) (buf : list LogEntry) :
  1 ≤ MAX_LINES → ∃ pre, push_rolling e buf = pre ++ [e].
Proof.
  intros Hmax. unfold Logger.push_rolling. cbv zeta.
  destruct (Z.of_nat (length (buf ++ [e])) >? MAX_LINES) eqn:Hgt.
  - destruct buf as [|x buf].
    + simpl in Hgt. apply Z.gtb_lt in Hgt. lia.
    + exists buf. reflexivity.
  - exists buf. reflexivity.
Qed.

Lemma keep_last_snoc_last {A} (n : nat) (l : list A) (x : A) :
  (1 ≤ n)%nat → ∃ pre, keep_last n (l ++ [x]) = pre ++ [x].
Proof.
  intros Hn. unfold keep_last. rewrite length_app. simpl.
  rewrite drop_app_le by lia. eauto.
Qed.

(** X3.  What was just written is what a query shows first: with a capacity of
    at least one, after [_write] every [getLogs] whose filters the new entry
    passes, with a limit that is absent or positive, returns the new entry at
    the head of its result. *)
Theorem write_then_query t lvl mod_ msg mt (L : K11Logger) (w : W)
    (flvl fmod : option string) (limit : option Z) :
  1 ≤ MAX_LINES →
  0 < default 200 limit →
  let entry := make_entry t (_startTime L) lvl mod_ msg mt in
  matches flvl fmod entry →
  head (getLogs flvl fmod (Int <$> limit) (_write t lvl mod_ msg mt L w).1.1)
  = Some entry.
Proof.
  intros Hmax Hlim entry Hmatch.
  rewrite getLogs_matching, write_buffer. fold entry.
  destruct (push_rolling_last entry (_buffer L) Hmax) as [pre ->].
  rewrite filter_app, filter_cons, decide_True, filter_nil by done.
  replace (to_integer (neg (default (Int 200) (Int <$> limit))))
    with (- default 200 limit) by (by destruct limit).
  rewrite slice_from_neg by done.
  destruct (keep_last_snoc_last (Z.to_nat (default 200 limit))
              (filter (matches flvl fmod) pre) entry) as [pre' Hpre]; [lia|].
  unfold keep_last in Hpre. rewrite Hpre. by rewrite reverse_app.
Qed.

Lemma new_total (t0 : Z) : sum_values (_stats (new (W:=W) t0)) = 0.
Proof. reflexivity. Qed.

Lemma method_levels_cases (l : string) :
  l ∈ method_levels →
  l = "debug" ∨ l = "info" ∨ l = "warn" ∨ l = "error" ∨ l = "critical".
Proof.
  unfold method_levels. rewrite !elem_of_cons, elem_of_nil. tauto.
Qed.

Lemma new_method_counter (t0 : Z) (l : string) :
  l ∈ method_levels → _stats (new (W:=W) t0) !! l = Some 0.
Proof.
  intros Hl. apply method_levels_cases in Hl.
  destruct Hl as [->|[->|[->|[->| ->]]]]; reflexivity.
Qed.

Lemma new_counters_are_methods (t0 : Z) (l : string) :
  is_Some (_stats (new (W:=W) t0) !! l) → l ∈ method_levels.
Proof.
  unfold new, method_levels. simpl. rewrite !elem_of_cons.
  intros Hl.
  repeat (apply lookup_insert_is_Some in Hl as [<-|[_ Hl]]; [tauto|]).
  rewrite lookup_empty in Hl. by destruct Hl.
Qed.

Lemma write_calls_level_count (cs : list Call) (l : string) (L : K11Logger)
    (w : W) :
  default 0 (_stats (write_calls cs L w).1 !! l)
  = default 0 (_stats L !! l)
    + Z.of_nat (length (filter (λ c, c_level c = l) cs)).
Proof.
  induction cs as [|c cs IH] using rev_ind; [simpl; lia|].
  rewrite write_calls_snoc. unfold Logger.write_call.
  rewrite write_stats, bump_lookup, IH.
  rewrite filter_app, length_app, filter_cons, filter_nil.
  destruct (decide (l = c_level c)) as [->|Hne].
  - rewrite decide_True by done. simpl. lia.
  - rewrite decide_False by congruence. simpl. lia.
Qed.

Lemma write_calls_no_new_counter (cs : list Call) (l : string) (L : K11Logger)
    (w : W) :
  Forall (λ c, is_Some (_stats L !! c_level c)) cs →
  is_Some (_stats (write_calls cs L w).1 !! l) → is_Some (_stats L !! l).
Proof.
  induction cs as [|c cs IH] using rev_ind; intros Hall; [done|].
  apply Forall_app in Hall as [Hcs Hc]. rewrite Forall_singleton in Hc.
  rewrite write_calls_snoc. unfold Logger.write_call.
  rewrite write_stats. unfold bump. intros Hl.
  apply lookup_insert_is_Some in Hl as [<-|[_ Hl]]; [done|].
  by apply IH.
Qed.

(** X4.  The counters of the five logging methods: on a logger with the
    constructor's counters, after any calls made at the levels of the five
    methods, [total] is the number of calls, the counter of each of the five
    levels is the number of calls at that level, and [_stats] has no other
    counter. *)
Theorem total_counts_method_calls (cs : list Call) (t0 now_ : Z)
    (L0 : K11Logger) (w : W) :
  _stats L0 = _stats (new (W:=W) t0) →
  Forall (λ c, c_level c ∈ method_levels) cs →
  let st := getStats now_ (write_calls cs L0 w).1 in
  ls_total st = Z.of_nat (length cs) ∧
  (∀ l, l ∈ method_levels →
        counts st !! l
        = Some (Z.of_nat (length (filter (λ c, c_level c = l) cs)))) ∧
  (∀ l, is_Some (counts st !! l) ↔ l ∈ method_levels).
Proof.
  intros Hstats Hall st. subst st. simpl.
  assert (Hkeep : ∀ l, l ∈ method_levels →
                       is_Some (_stats (write_calls cs L0 w).1 !! l)).
  { intros l Hl. apply write_calls_stats_dom. rewrite Hstats.
    rewrite (new_method_counter t0 l Hl). eauto. }
  split_and!.
  - rewrite write_calls_total, Hstats, new_total. lia.
  - intros l Hl. destruct (Hkeep l Hl) as [v Hv].
    pose proof (write_calls_level_count cs l L0 w) as Hc.
    rewrite Hv, Hstats, (new_method_counter t0 l Hl) in Hc. simpl in Hc.
    rewrite Hv. f_equal. lia.
  - intros l. split; [|by apply Hkeep].
    intros Hl. apply (new_counters_are_methods t0). rewrite <- Hstats.
    apply (write_calls_no_new_counter cs l L0 w); [|done].
    eapply Forall_impl; [exact Hall|]. intros c Hc. simpl in Hc.
    rewrite Hstats, (new_method_counter t0 _ Hc). eauto.
Qed.

(** X5.  A limit that is not a number (what [parseInt] makes of [?limit=abc] in
    [GET /logs]) does not limit: [getLogs] returns every matching entry of the
    buffer, newest first. *)
Theorem query_nan_limit lvl mod_ (L : K11Logger) :
  getLogs lvl mod_ (Some NaN) L
  = reverse (filter (matches lvl mod_) (_buffer L)).
Proof.
  rewrite getLogs_matching. simpl. by rewrite (slice_from_nonneg 0).
Qed.

End Facts.

(** [buffer_bounded] with a capacity of five and three calls. *)
Lemma buffer_bounded_witness :
  0 ≤ 5 ∧ Z.of_nat (length (_buffer (new (W:=unit) 0))) ≤ 5 ∧
  Z.of_nat (length (_buffer (write_calls 5 three_calls (new 0) tt).1)) ≤ 5.
Proof.
  assert (H0 : 0 ≤ 5) by lia.
  assert (H1 : Z.of_nat (length (_buffer (new (W:=unit) 0))) ≤ 5)
    by (simpl; lia).
  split_and!; [exact H0 | exact H1 |].
  apply (buffer_bounded (W:=unit) 5 three_calls (new 0) tt H0 H1).
Defined.

(** [no_capacity_keeps_nothing] with a capacity of zero. *)
Lemma no_capacity_keeps_nothing_witness :
  0 ≤ 0 ∧ _buffer (new (W:=unit) 0) = [] ∧
  _buffer (write_calls 0 three_calls (new 0) tt).1 = [].
Proof.
  assert (H0 : 0 ≤ 0) by lia.
  split_and!; [exact H0 | reflexivity |].
  apply (no_capacity_keeps_nothing (W:=unit) 0 three_calls (new 0) tt
           None None None 0 H0 eq_refl).
Defined.

(** [write_then_query] for [error('DB', 'down')] and
    [getLogs({level: 'error', limit: 1})]. *)
Lemma write_then_query_witness :
  1 ≤ 2000 ∧ 0 < default 200 (Some 1) ∧
  matches (Some "error") None
    (make_entry tick0 0 "error" (Some "DB") "down" None) ∧
  head (getLogs (Some "error") None (Int <$> Some 1)
          (_write (W:=unit) 2000 tick0 "error" (Some "DB") "down" None
             (new 0) tt).1.1)
  = Some (make_entry tick0 0 "error" (Some "DB") "down" None).
Proof.
  assert (H1 : 1 ≤ 2000) by lia.
  assert (H2 : 0 < default 200 (Some 1)) by (simpl; lia).
  assert (H3 : matches (Some "error") None
                 (make_entry tick0 0 "error" (Some "DB") "down" None)).
  { split; [reflexivity | discriminate]. }
  split_and!; [exact H1 | exact H2 | exact H3 |].
  apply (write_then_query (W:=unit) 2000 tick0 "error" (Some "DB") "down" None
           (new 0) tt (Some "error") None (Some 1) H1 H2 H3).
Defined.

(** [total_counts_method_calls] for the three calls of the scenario. *)
Lemma total_counts_method_calls_witness :
  _stats (new (W:=unit) 0) = _stats (new (W:=unit) 0) ∧
  Forall (λ c, c_level c ∈ method_levels) three_calls ∧
  ls_total (getStats 5000 (write_calls (W:=unit) 2000 three_calls (new 0) tt).1)
  = Z.of_nat (length three_calls).
Proof.
  assert (Hall : Forall (λ c, c_level c ∈ method_levels) three_calls).
  { unfold three_calls, method_levels.
    repeat (apply Forall_cons; split; [simpl; rewrite !elem_of_cons; tauto|]).
    apply Forall_nil_2. }
  split_and!; [reflexivity | exact Hall |].
  apply (total_counts_method_calls (W:=unit) 2000 three_calls 0 5000 (new 0) tt
           eq_refl Hall).
Defined.

End LoggerExtra.

(** ** More on the request tracker *)

Module TrackerExtra.

Import Logger RequestTracker JSFacts Samples LoggerFacts TrackerFacts.

(** *** Sums over the routes *)

Lemma sum_routes_app φ (m1 m2 : list (string * RouteStats)) :
  sum_routes φ (m1 ++ m2) = sum_routes φ m1 + sum_routes φ m2.
Proof.
  unfold sum_routes. induction m1 as [|kv m1 IH]; simpl; [done|].
  rewrite IH. lia.
Qed.

Lemma alter_route_absent f (r : string) (m : list (string * RouteStats)) :
  r ∉ map fst m → alter_route f r m = m.
Proof.
  induction m as [|[k v] m IH]; simpl; [done|].
  rewrite not_elem_of_cons. intros [Hne Hnin].
  rewrite decide_False by congruence. by rewrite IH.
Qed.

Lemma sum_routes_alter φ f (d : Z) (r : string)
    (m : list (string * RouteStats)) :
  (∀ v, φ (f v) = φ v + d) →
  NoDup (map fst m) → r ∈ map fst m →
  sum_routes φ (alter_route f r m) = sum_routes φ m + d.
Proof.
  intros Hf. induction m as [|[k v] m IH]; simpl; intros Hnd Hin.
  - by apply elem_of_nil in Hin.
  - apply NoDup_cons in Hnd as [Hk Hnd].
    destruct (decide (k = r)) as [->|Hne]; simpl.
    + rewrite alter_route_absent by done. rewrite Hf.
      unfold sum_routes. lia.
    + apply elem_of_cons in Hin as [Heq|Hin]; [congruence|].
      fold (alter_route f r m). fold (sum_routes φ (alter_route f r m)).
      rewrite IH by done. unfold sum_routes. lia.
Qed.

Lemma sum_routes_update φ (d : Z) r status x (st : Stats) :
  φ {| count := 0; totalMs := 0; errors := 0 |} = 0 →
  (∀ v, φ (hit status x v) = φ v + d) →
  routes_ok (byRoute st) →
  sum_routes φ (byRoute (update_stats r status x st))
  = sum_routes φ (byRoute st) + d.
Proof.
  intros Hzero Hhit [Hnd _]. simpl. unfold ensure_route.
  destruct (get_route r (byRoute st)) as [v|] eqn:Hget.
  - apply sum_routes_alter; [done | done |].
    apply dec_stable. intros Hn. apply get_route_None in Hn. congruence.
  - apply get_route_None in Hget.
    rewrite (sum_routes_alter φ _ d); [| done | |].
    + rewrite sum_routes_app. unfold sum_routes at 2. simpl.
      rewrite Hzero. lia.
    + rewrite map_app. simpl. apply NoDup_app. split_and!; [done | |].
      * intros k Hk Hin. apply list_elem_of_singleton in Hin. by subst.
      * apply NoDup_singleton.
    + rewrite map_app. apply elem_of_app. right. simpl.
      by apply list_elem_of_singleton.
Qed.




Section Facts.

Context {W : Type}.
Variable MAX_LINES : Z.

Abbreviation record_all := (@record_all W MAX_LINES).
Abbreviation record := (@record W MAX_LINES).

(** X6.  Every completed request is counted once in [total] and in exactly one
    of [ok] (status below 400), [errors4xx] (400 to 499) and [errors5xx]
    (500 and more), and in [slow] exactly when it took more than 500 ms:
    after any sequence of completions the five counters have grown by the
    numbers of such requests, so [ok + errors4xx + errors5xx] keeps its
    distance to [total]. *)
Theorem classification_counts (cs : list Completion) (st0 : Stats)
    (L : @K11Logger W) (w : W) :
  let st := (record_all cs st0 L w).1.1 in
  total st = total st0 + Z.of_nat (length cs) ∧
  RequestTracker.ok st
  = RequestTracker.ok st0
    + Z.of_nat (length (filter (λ c, r_status c < 400) cs)) ∧
  errors4xx st
  = errors4xx st0
    + Z.of_nat (length (filter (λ c, 400 ≤ r_status c ∧ r_status c < 500)
                          cs)) ∧
  errors5xx st
  = errors5xx st0 + Z.of_nat (length (filter (λ c, 500 ≤ r_status c) cs)) ∧
  slow st = slow st0 + Z.of_nat (length (filter is_slow cs)) ∧
  (∀ c, is_slow c = true ↔ (500 < r_elapsedMs c)%Q) ∧
  RequestTracker.ok st + errors4xx st + errors5xx st - total st
  = RequestTracker.ok st0 + errors4xx st0 + errors5xx st0 - total st0.
Proof.
  cbv zeta.
  induction cs as [|c cs IH] using rev_ind.
  - simpl. split_and!; try lia. intros c. apply Qgt_bool_spec.
  - destruct IH as (Ht & Hok & H4 & H5 & Hs & Hslow & Hsum).
    rewrite record_all_snoc_stats.
    set (st := (record_all cs st0 L w).1.1) in *.
    rewrite !filter_app, !length_app, !filter_cons, !filter_nil.
    simpl. change (Qgt_bool (r_elapsedMs c) SLOW_THRESHOLD_MS) with (is_slow c).
    destruct (Z.geb_spec (r_status c) 500), (Z.geb_spec (r_status c) 400),
      (is_slow c);
      simpl; repeat case_decide; simpl; split_and!; try lia; try done.
Qed.

(** X7.  The routes add up to the global counters: in every state reached from
    the initial one the route keys are distinct, every route has a positive
    count, the counts of the routes sum to [total] and their error counts to
    [errors4xx + errors5xx]. *)
Theorem route_totals (cs : list Completion) (t0 : Z) (L : @K11Logger W)
    (w : W) :
  let st := (record_all cs (initial t0) L w).1.1 in
  NoDup (map fst (byRoute st)) ∧
  Forall (λ kv, 1 ≤ count kv.2) (byRoute st) ∧
  sum_routes count (byRoute st) = total st ∧
  sum_routes errors (byRoute st) = errors4xx st + errors5xx st.
Proof.
  cbv zeta.
  induction cs as [|c cs IH] using rev_ind.
  - simpl. split_and!; [apply NoDup_nil_2 | apply Forall_nil_2 | done | done].
  - destruct IH as (Hnd & Hcnt & Hc & He).
    rewrite record_all_snoc_stats.
    set (st := (record_all cs (initial t0) L w).1.1) in *.
    assert (Hok : routes_ok (byRoute st)) by done.
    destruct (update_stats_routes_ok (route_of c) (r_status c)
                (r_elapsedMs c) st Hok) as [Hnd' Hcnt'].
    split_and!; [done | done | |].
    + rewrite (sum_routes_update count 1); [|done| |done].
      * simpl. lia.
      * intros v. done.
    + rewrite (sum_routes_update errors
                 (if r_status c >=? 400 then 1 else 0)); [|done| |done].
      * simpl.
        destruct (Z.geb_spec (r_status c) 500), (Z.geb_spec (r_status c) 400);
          lia.
      * intros v. simpl. destruct (r_status c >=? 400); lia.
Qed.


Lemma record_all_snoc_logger cs c st (L : @K11Logger W) (w : W) :
  (record_all (cs ++ [c]) st L w).1.2
  = (record c (record_all cs st L w).1.1 (record_all cs st L w).1.2
       (record_all cs st L w).2).1.1.2.
Proof. by rewrite record_all_snoc. Qed.

(** X9.  What the tracker writes to the log: over any sequence of completions,
    one [warn] entry for each request slower than 500 ms, one [error] entry
    for each request answered with 500 or more that was not slow, and
    nothing else; requests answered with 4xx are not logged by the
    tracker. *)
Theorem tracker_log_volume (cs : list Completion) (st : Stats)
    (L : @K11Logger W) (w : W) :
  let L' := (record_all cs st L w).1.2 in
  let number (f : Completion → bool) := Z.of_nat (length (filter f cs)) in
  sum_values (_stats L') = sum_values (_stats L) + number is_logged ∧
  default 0 (_stats L' !! "warn")
  = default 0 (_stats L !! "warn") + number is_slow ∧
  default 0 (_stats L' !! "error")
  = default 0 (_stats L !! "error")
    + number (λ c, negb (is_slow c) && (r_status c >=? 500)) ∧
  (∀ l, l ≠ "warn" → l ≠ "error" → _stats L' !! l = _stats L !! l).
Proof.
  cbv zeta.
  induction cs as [|c cs IH] using rev_ind.
  - simpl. split_and!; (lia || done).
  - destruct IH as (Hsum & Hwarn & Herr & Hother).
    rewrite record_all_snoc_logger. unfold RequestTracker.record.
    rewrite recordCompletion_logger. cbv zeta.
    set (L1 := (record_all cs st L w).1.2) in *.
    rewrite !filter_app, !length_app, !filter_cons, !filter_nil.
    assert (Hl : is_logged c = is_slow c || (r_status c >=? 500)) by done.
    rewrite Hl. clear Hl.
    change (Qgt_bool (r_elapsedMs c) SLOW_THRESHOLD_MS) with (is_slow c).
    unfold warn, error.
    destruct (is_slow c); simpl.
    + rewrite write_stats, sum_values_bump, !bump_lookup. simpl.
      split_and!; [lia | lia | lia |].
      intros l H1 H2. unfold bump. rewrite lookup_insert_ne by done. auto.
    + destruct (r_status c >=? 500); simpl.
      * rewrite write_stats, sum_values_bump, !bump_lookup. simpl.
        split_and!; [lia | lia | lia |].
        intros l H1 H2. unfold bump. rewrite lookup_insert_ne by done. auto.
      * split_and!; [lia | lia | lia | done].
Qed.

End Facts.

End TrackerExtra.

(** ** More on the system routes *)

Module SystemExtra.

Import Logger System JSFacts Samples LoggerFacts SystemFacts.

(** *** POST /log *)

Section Routes.

Context {W : Type}.
Variable MAX_LINES : Z.
Variable slice0 : nat → string → string.

(** X10.  What [POST /log] lets into the log.  When [message] is falsy
    (missing, empty, or a value such as [0], [false] or [null]) it answers
    400 and logs nothing.  When [String(module)] or [String(message)] throws,
    the handler throws and logs nothing.  Otherwise it makes one call of
    [_write]: the level of the entry is the requested one if that is a
    string among the five levels and [info] if not, so no other counter can
    be created; the module is the first 20 characters of [String(module)],
    or [CORE] when these are empty, and so never empty; the message is the
    first 500 characters of [String(message)]. *)
Theorem post_log_sanitised (t : Tick) (body : option LogBody)
    (L : @K11Logger W) (w : W) :
  let res := post_log MAX_LINES slice0 t body L w in
  let b := default (mkBody FAbsent FAbsent FAbsent None) body in
  let module := field_default "FRONTEND" (b_module b) in
  (field_truthy (b_message b) = false → res = (L, w, Return 400)) ∧
  (field_truthy (b_message b) = true →
   to_String module = Throw ∨ to_String (b_message b) = Throw →
   res = (L, w, Throw)) ∧
  (field_truthy (b_message b) = true →
   ∀ m msg, to_String module = Return m →
            to_String (b_message b) = Return msg →
   ∃ entry,
     _buffer res.1.1 = push_rolling MAX_LINES entry (_buffer L) ∧
     _stats res.1.1 = bump (level entry) (_stats L) ∧
     level entry ∈ validLevels ∧
     (∀ l, b_level b = FStr l → l ∈ validLevels → level entry = l) ∧
     ((∀ l, b_level b = FStr l → l ∉ validLevels) → level entry = "info") ∧
     module_ entry = or_default (Some (slice0 20 m)) "CORE" ∧
     module_ entry ≠ EmptyString ∧
     message entry = slice0 500 msg ∧
     meta entry = b_meta b ∧
     res.2 ≠ Return 400).
Proof.
  intros res b module. subst res. unfold post_log. fold b. fold module.
  split_and!.
  - intros Hmsg. by rewrite Hmsg.
  - intros Hmsg Hthrow. rewrite Hmsg. simpl.
    destruct (to_String module) as [m|]; [|done].
    destruct Hthrow as [Hthrow|Hthrow]; [done|]. by rewrite Hthrow.
  - intros Hmsg m msg Hm Hmsg'. rewrite Hmsg, Hm, Hmsg'. simpl.
    set (safeLevel := safe_level (field_default "info" (b_level b))).
    exists (make_entry t (_startTime L) safeLevel (Some (slice0 20 m))
              (slice0 500 msg) (b_meta b)).
    pose proof (write_buffer MAX_LINES t safeLevel (Some (slice0 20 m))
                  (slice0 500 msg) (b_meta b) L w) as Hbuf.
    pose proof (write_stats MAX_LINES t safeLevel (Some (slice0 20 m))
                  (slice0 500 msg) (b_meta b) L w) as Hstats.
    destruct (_write MAX_LINES t safeLevel (Some (slice0 20 m))
                (slice0 500 msg) (b_meta b) L w) as [[L' w'] c].
    simpl in Hbuf, Hstats. simpl.
    split_and!.
    + done.
    + done.
    + subst safeLevel. unfold safe_level, validLevels.
      destruct (b_level b) as [|l|]; simpl; [set_solver | | set_solver].
      case_bool_decide; [done | set_solver].
    + intros l Hl Hin. subst safeLevel. rewrite Hl. simpl.
      by rewrite bool_decide_true.
    + intros Hnot. subst safeLevel.
      destruct (b_level b) as [|l|] eqn:Hl; simpl; try done.
      rewrite bool_decide_false; [done|]. by apply Hnot.
    + done.
    + destruct (String.eqb_spec (slice0 20 m) EmptyString); done.
    + done.
    + done.
    + by destruct c.
Qed.

End Routes.

(** [{message: 0}] is answered 400 though it has a message; a body with the
    level [fatal] and a [null] module is logged at [info] with the module
    [null]. *)
Example post_log_samples :
  post_log (W:=unit) 2000 (String.substring 0) tick0 (Some body_zero) (new 0) tt
  = (new 0, tt, Return 400) ∧
  map (λ e, (level e, module_ e, message e))
    (_buffer (post_log (W:=unit) 2000 (String.substring 0) tick0
                (Some body_fatal) (new 0) tt).1.1)
  = [("info", "null", "disk full")].
Proof. split; reflexivity. Qed.

(** *** Delivery to the clients *)

Lemma received_app (r : Res) (tr1 tr2 : list Event) :
  received r (tr1 ++ tr2) = received r tr1 ++ received r tr2.
Proof. apply omap_app. Qed.

Lemma removals_app (r : Res) (tr1 tr2 : list Event) :
  removals r (tr1 ++ tr2) = (removals r tr1 + removals r tr2)%nat.
Proof. unfold removals. by rewrite omap_app, length_app. Qed.

Lemma received_fanout_one (r x : Res) (m : Msg) (bad : gset Res) :
  received r [fanout_event m bad x]
  = if decide (x = r ∧ x ∉ bad) then [m] else [].
Proof.
  unfold fanout_event, received.
  destruct (decide (x ∈ bad)); simpl.
  - rewrite decide_False; [done | tauto].
  - destruct (decide (x = r)); simpl.
    + by rewrite decide_True.
    + rewrite decide_False; [done | tauto].
Qed.

Lemma removals_fanout_one (r x : Res) (m : Msg) (bad : gset Res) :
  removals r [fanout_event m bad x]
  = if decide (x = r ∧ x ∈ bad) then 1%nat else 0%nat.
Proof.
  unfold fanout_event, removals.
  destruct (decide (x ∈ bad)); simpl.
  - destruct (decide (x = r)); simpl.
    + by rewrite decide_True.
    + rewrite decide_False; [done | tauto].
  - rewrite decide_False; [done | tauto].
Qed.

(** What one fan-out writes to [r]: the message, once, if [r] is connected
    and its write does not throw. *)
Lemma received_fanout (r : Res) (m : Msg) (bad : gset Res) (cl : list Res) :
  NoDup cl →
  received r (map (fanout_event m bad) cl)
  = if decide (r ∈ cl ∧ r ∉ bad) then [m] else [].
Proof.
  induction 1 as [|x cl Hx Hnd IH].
  - rewrite decide_False; [done|]. intros [H _]. by apply elem_of_nil in H.
  - change (map (fanout_event m bad) (x :: cl))
      with ([fanout_event m bad x] ++ map (fanout_event m bad) cl).
    rewrite received_app, received_fanout_one, IH.
    destruct (decide (x = r ∧ x ∉ bad)) as [H1|H1],
      (decide (r ∈ cl ∧ r ∉ bad)) as [H2|H2],
      (decide (r ∈ x :: cl ∧ r ∉ bad)) as [H3|H3];
      simpl; try done; exfalso; rewrite elem_of_cons in H3;
      destruct (decide (x = r)) as [->|Hne]; intuition congruence.
Qed.

Lemma removals_fanout (r : Res) (m : Msg) (bad : gset Res) (cl : list Res) :
  NoDup cl →
  removals r (map (fanout_event m bad) cl)
  = if decide (r ∈ cl ∧ r ∈ bad) then 1%nat else 0%nat.
Proof.
  induction 1 as [|x cl Hx Hnd IH].
  - rewrite decide_False; [done|]. intros [H _]. by apply elem_of_nil in H.
  - change (map (fanout_event m bad) (x :: cl))
      with ([fanout_event m bad x] ++ map (fanout_event m bad) cl).
    rewrite removals_app, removals_fanout_one, IH.
    destruct (decide (x = r ∧ x ∈ bad)) as [H1|H1],
      (decide (r ∈ cl ∧ r ∈ bad)) as [H2|H2],
      (decide (r ∈ x :: cl ∧ r ∈ bad)) as [H3|H3];
      simpl; try done; exfalso; rewrite elem_of_cons in H3;
      destruct (decide (x = r)) as [->|Hne]; intuition congruence.
Qed.

Section Delivery.

Variable MAX_LINES : Z.

Abbreviation write_call := (@write_call Sse MAX_LINES).
Abbreviation write_calls := (@write_calls Sse MAX_LINES).

(** One call of [_write] on the server: the entry is stored and fanned out,
    and the call returns. *)
Lemma write_call_broadcast (c : Call) (L : @K11Logger Sse) (s : Sse) :
  _listeners L = [broadcast] →
  let e := entry_of (_startTime L) c in
  write_call c L s
  = ({| _buffer := push_rolling MAX_LINES e (_buffer L);
        _stats := bump (c_level c) (_stats L);
        _startTime := _startTime L;
        _listeners := _listeners L |},
     {| _sseClients := filter (λ x, x ∉ broken s) (_sseClients s);
        broken := broken s;
        trace := trace s
                 ++ map (fanout_event (Data e) (broken s)) (_sseClients s) |},
     Return e).
Proof.
  intros Hls e. unfold Logger.write_call, _write. cbn [_listeners].
  rewrite Hls. cbn [emit]. fold (entry_of (_startTime L) c). fold e.
  by rewrite broadcast_spec.
Qed.

Lemma filter_healthy_idemp (bad : gset Res) (cl : list Res) :
  filter (λ x, x ∉ bad) (filter (λ x, x ∉ bad) cl) = filter (λ x, x ∉ bad) cl.
Proof.
  rewrite list_filter_filter. apply list_filter_iff. intros x. tauto.
Qed.

(** The run of a sequence of calls on the server, seen from the response
    [r]. *)
Lemma broadcast_run (cs : list Call) (L : @K11Logger Sse) (s : Sse) (r : Res) :
  _listeners L = [broadcast] →
  NoDup (_sseClients s) →
  let s' := (write_calls cs L s).2 in
  broken s' = broken s ∧
  _sseClients s' = match cs with
                   | [] => _sseClients s
                   | _ => filter (λ x, x ∉ broken s) (_sseClients s)
                   end ∧
  received r (trace s')
  = received r (trace s)
    ++ (if decide (r ∈ _sseClients s ∧ r ∉ broken s)
        then map (λ c, Data (entry_of (_startTime L) c)) cs else []) ∧
  removals r (trace s')
  = (removals r (trace s)
     + match cs with
       | [] => 0
       | _ => if decide (r ∈ _sseClients s ∧ r ∈ broken s) then 1 else 0
       end)%nat.
Proof.
  revert L s. induction cs as [|c cs IH]; intros L s Hls Hnd.
  - simpl. split_and!; [done | done | | lia].
    case_decide; by rewrite app_nil_r.
  - cbv zeta. unfold Logger.write_calls. simpl.
    fold (write_call c L s).
    rewrite (write_call_broadcast c L s Hls). cbv zeta. simpl.
    set (L1 := {| _buffer := _ |}). set (s1 := {| _sseClients := _ |}).
    specialize (IH L1 s1 Hls).
    assert (Hnd1 : NoDup (_sseClients s1)) by (by apply NoDup_filter).
    specialize (IH Hnd1). cbv zeta in IH.
    unfold Logger.write_calls in IH.
    destruct IH as (Hb & Hcl & Hrec & Hrem).
    split_and!.
    + by rewrite Hb.
    + rewrite Hcl. destruct cs; [done|]. simpl. apply filter_healthy_idemp.
    + rewrite Hrec. simpl.
      rewrite received_app, (received_fanout _ _ _ _ Hnd), <- app_assoc.
      f_equal.
      destruct (decide (r ∈ _sseClients s ∧ r ∉ broken s)) as [[Hin Hh]|Hn].
      * rewrite decide_True; [done|]. split; [|done].
        apply list_elem_of_filter. done.
      * rewrite decide_False; [done|]. intros [Hin Hh]. apply Hn.
        apply list_elem_of_filter in Hin. tauto.
    + rewrite Hrem. simpl.
      rewrite removals_app, (removals_fanout _ _ _ _ Hnd).
      destruct cs; [lia|].
      rewrite (decide_False (P := r ∈ filter _ _ ∧ _)); [lia|].
      intros [Hin Hb']. apply list_elem_of_filter in Hin. tauto.
Qed.

(** X11.  Delivery is complete and in order: a connected client whose writes do
    not throw is written every entry that is logged, once each, in the order
    of the calls, and it stays connected. *)
Theorem fifo_delivery (cs : list Call) (L : @K11Logger Sse) (s : Sse)
    (r : Res) :
  _listeners L = [broadcast] →
  NoDup (_sseClients s) →
  r ∈ _sseClients s →
  r ∉ broken s →
  let s' := (write_calls cs L s).2 in
  received r (trace s')
  = received r (trace s) ++ map (λ c, Data (entry_of (_startTime L) c)) cs ∧
  r ∈ _sseClients s' ∧
  removals r (trace s') = removals r (trace s).
Proof.
  intros Hls Hnd Hin Hh s'.
  destruct (broadcast_run cs L s r Hls Hnd) as (Hb & Hcl & Hrec & Hrem).
  fold s' in Hb, Hcl, Hrec, Hrem.
  split_and!.
  - rewrite Hrec, decide_True; done.
  - rewrite Hcl. destruct cs; [done|]. by apply list_elem_of_filter.
  - rewrite Hrem. destruct cs; [lia|]. rewrite decide_False; [lia | tauto].
Qed.

(** X12.  A client whose write throws is dropped by the first entry that is logged
    and is not tried again: over any non-empty sequence of calls it is
    removed from the set exactly once, is written nothing, and is not in the
    set afterwards. *)
Theorem failing_client_dropped (cs : list Call) (L : @K11Logger Sse)
    (s : Sse) (r : Res) :
  _listeners L = [broadcast] →
  NoDup (_sseClients s) →
  r ∈ _sseClients s →
  r ∈ broken s →
  cs ≠ [] →
  let s' := (write_calls cs L s).2 in
  (r ∉ _sseClients s') ∧
  received r (trace s') = received r (trace s) ∧
  removals r (trace s') = S (removals r (trace s)).
Proof.
  intros Hls Hnd Hin Hb Hne s'.
  destruct (broadcast_run cs L s r Hls Hnd) as (_ & Hcl & Hrec & Hrem).
  fold s' in Hcl, Hrec, Hrem.
  destruct cs as [|c cs]; [done|].
  split_and!.
  - rewrite Hcl, list_elem_of_filter. tauto.
  - rewrite Hrec, decide_False; [by rewrite app_nil_r | tauto].
  - rewrite Hrem, decide_True; [lia | done].
Qed.

Lemma filter_ne_absent (r : Res) (cl : list Res) :
  r ∉ cl → filter (λ x, x ≠ r) cl = cl.
Proof.
  induction cl as [|x cl IH]; [done|].
  rewrite not_elem_of_cons. intros [Hne Hnin].
  rewrite filter_cons, decide_True by congruence. by rewrite IH.
Qed.

(** X13.  Closing the connection unsubscribes: the handler removes the client
    from the set before it logs the disconnection, so the client is not
    written that entry (nor anything else) and is not in the set afterwards;
    every other connected client whose write does not throw is written the
    disconnection entry, whose message reports the size of the set after the
    removal.  Closing a client that is not in the set removes nobody. *)
Theorem close_unsubscribes (t : Tick) (r : Res) (L : @K11Logger Sse)
    (s : Sse) :
  _listeners L = [broadcast] →
  NoDup (_sseClients s) →
  let res := close MAX_LINES t r L s in
  let remaining := filter (λ x, x ≠ r) (_sseClients s) in
  let entry := make_entry t (_startTime L) "debug" (Some "SSE")
                 (disconnected_message (length remaining)) None in
  res.2 = Return tt ∧
  (r ∉ _sseClients res.1.2) ∧
  received r (trace res.1.2) = received r (trace s) ∧
  (∀ y, y ∈ _sseClients s → y ≠ r → y ∉ broken s →
        y ∈ _sseClients res.1.2
        ∧ received y (trace res.1.2) = received y (trace s) ++ [Data entry]) ∧
  (r ∉ _sseClients s → remaining = _sseClients s).
Proof.
  intros Hls Hnd res remaining entry.
  assert (Hnd' : NoDup remaining) by (by apply NoDup_filter).
  assert (Hres : res
    = ({| _buffer := push_rolling MAX_LINES entry (_buffer L);
          _stats := bump "debug" (_stats L);
          _startTime := _startTime L;
          _listeners := _listeners L |},
       {| _sseClients := filter (λ x, x ∉ broken s) remaining;
          broken := broken s;
          trace := (trace s ++ [Deleted r])
                   ++ map (fanout_event (Data entry) (broken s)) remaining |},
       Return tt)).
  { subst res. unfold close, debug, _write. cbn [_listeners].
    rewrite Hls. cbn [emit]. rewrite broadcast_spec. done. }
  rewrite Hres. simpl. split_and!.
  - done.
  - rewrite list_elem_of_filter. subst remaining.
    rewrite list_elem_of_filter. tauto.
  - rewrite !received_app, (received_fanout _ _ _ _ Hnd'). simpl.
    rewrite decide_False.
    + by rewrite !app_nil_r.
    + subst remaining. rewrite list_elem_of_filter. tauto.
  - intros y Hy Hne Hh.
    assert (Hrem : y ∈ remaining)
      by (subst remaining; by apply list_elem_of_filter).
    split.
    + by apply list_elem_of_filter.
    + rewrite !received_app, (received_fanout _ _ _ _ Hnd'). simpl.
      rewrite decide_True by done. by rewrite app_nil_r.
  - intros Hnin. subst remaining. by apply filter_ne_absent.
Qed.

End Delivery.

Lemma two_clients_nodup : NoDup (_sseClients two_clients).
Proof.
  simpl. apply NoDup_cons. split; [|apply NoDup_singleton].
  intros H. apply list_elem_of_singleton in H. discriminate.
Qed.

(** [fifo_delivery]: the healthy client 2 is written the three entries. *)
Lemma fifo_delivery_witness :
  _listeners (on broadcast (new 0)) = [broadcast] ∧
  NoDup (_sseClients two_clients) ∧
  2%nat ∈ _sseClients two_clients ∧
  (2%nat ∉ broken two_clients) ∧
  received 2%nat
    (trace (write_calls 2000 three_calls (on broadcast (new 0)) two_clients).2)
  = map (λ c, Data (entry_of 0 c)) three_calls.
Proof.
  pose proof two_clients_nodup as H1.
  assert (H2 : 2%nat ∈ _sseClients two_clients)
    by (by apply list_elem_of_lookup_2 with 1%nat).
  assert (H3 : 2%nat ∉ broken two_clients).
  { simpl. intros H. apply elem_of_singleton in H. discriminate. }
  split_and!; [reflexivity | exact H1 | exact H2 | exact H3 |].
  apply (fifo_delivery 2000 three_calls (on broadcast (new 0)) two_clients
           2%nat eq_refl H1 H2 H3).
Defined.

(** [failing_client_dropped]: client 1, whose write throws, is gone after
    the three entries. *)
Lemma failing_client_dropped_witness :
  _listeners (on broadcast (new 0)) = [broadcast] ∧
  NoDup (_sseClients two_clients) ∧
  1%nat ∈ _sseClients two_clients ∧
  1%nat ∈ broken two_clients ∧
  three_calls ≠ [] ∧
  (1%nat ∉ _sseClients
     (write_calls 2000 three_calls (on broadcast (new 0)) two_clients).2).
Proof.
  pose proof two_clients_nodup as H1.
  assert (H2 : 1%nat ∈ _sseClients two_clients)
    by (by apply list_elem_of_lookup_2 with 0%nat).
  assert (H3 : 1%nat ∈ broken two_clients)
    by (simpl; by apply elem_of_singleton).
  assert (H4 : three_calls ≠ []) by discriminate.
  split_and!; [reflexivity | exact H1 | exact H2 | exact H3 | exact H4 |].
  apply (failing_client_dropped 2000 three_calls (on broadcast (new 0))
           two_clients 1%nat eq_refl H1 H2 H3 H4).
Defined.

(** [close_unsubscribes]: client 2 closes. *)
Lemma close_unsubscribes_witness :
  _listeners (on broadcast (new 0)) = [broadcast] ∧
  NoDup (_sseClients two_clients) ∧
  (2%nat ∉ _sseClients
     (close 2000 tick0 2%nat (on broadcast (new 0)) two_clients).1.2).
Proof.
  pose proof two_clients_nodup as H1.
  split_and!; [reflexivity | exact H1 |].
  apply (close_unsubscribes 2000 tick0 2%nat (on broadcast (new 0)) two_clients
           eq_refl H1).
Defined.

(** *** Uptime *)

Lemma Qfloor_unique (q : Q) (z : Z) :
  (inject_Z z <= q)%Q → (q < inject_Z z + 1)%Q → Qfloor q = z.
Proof.
  intros H1 H2.
  pose proof (Qfloor_le q) as F1. pose proof (Qlt_floor q) as F2.
  rewrite inject_Z_plus in F2. change (inject_Z 1) with 1%Q in F2.
  assert (A : (inject_Z z < inject_Z (Qfloor q) + 1)%Q) by lra.
  assert (B : (inject_Z (Qfloor q) < inject_Z z + 1)%Q) by lra.
  change 1%Q with (inject_Z 1) in A, B. rewrite <- inject_Z_plus in A, B.
  rewrite <- Zlt_Qlt in A, B. lia.
Qed.

Lemma inject_Z_pos (k : Z) : 0 < k → (0 < inject_Z k)%Q.
Proof. intros Hk. change 0%Q with (inject_Z 0). by rewrite <- Zlt_Qlt. Qed.

Lemma Qfloor_div_pos (q : Q) (k : Z) :
  0 < k → Qfloor (q / inject_Z k) = Qfloor q / k.
Proof.
  intros Hk. pose proof (inject_Z_pos k Hk) as HkQ. apply Qfloor_unique.
  - pose proof (Qfloor_le q) as F1.
    assert (Hz : k * (Qfloor q / k) <= Qfloor q) by (apply Z.mul_div_le; lia).
    rewrite Zle_Qle, inject_Z_mult in Hz.
    apply Qle_shift_div_l; [done|]. lra.
  - pose proof (Qlt_floor q) as F2.
    assert (Hz : Qfloor q + 1 <= k * (Qfloor q / k) + k).
    { pose proof (Z.mod_pos_bound (Qfloor q) k Hk).
      pose proof (Z.div_mod (Qfloor q) k). lia. }
    rewrite Zle_Qle, !inject_Z_plus, inject_Z_mult in Hz.
    rewrite inject_Z_plus in F2.
    apply Qlt_shift_div_r; [done|]. lra.
Qed.

Lemma Qfloor_sub_Z (q : Q) (z : Z) : Qfloor (q - inject_Z z) = Qfloor q - z.
Proof.
  apply Qfloor_unique.
  - pose proof (Qfloor_le q). unfold Z.sub.
    rewrite inject_Z_plus, inject_Z_opp. lra.
  - pose proof (Qlt_floor q) as F2. rewrite inject_Z_plus in F2.
    change (inject_Z 1) with 1%Q in F2. unfold Z.sub.
    rewrite inject_Z_plus, inject_Z_opp. lra.
Qed.

(** On a non-negative number, [x % k] takes away the multiples of [k]. *)
Lemma js_rem_nonneg (x : Q) (k : Z) :
  (0 <= x)%Q → 0 < k →
  (js_rem x (inject_Z k) == x - inject_Z (k * (Qfloor x / k)))%Q.
Proof.
  intros Hx Hk. unfold js_rem. cbv zeta.
  pose proof (inject_Z_pos k Hk) as HkQ.
  assert (Hq : (0 <= x / inject_Z k)%Q).
  { apply Qle_shift_div_l; [done|]. lra. }
  apply Qle_bool_iff in Hq. rewrite Hq.
  rewrite Qfloor_div_pos by done. rewrite inject_Z_mult. reflexivity.
Qed.

(** X14.  [_formatUptime] splits the whole seconds of a non-negative uptime
    without loss: the minutes and the seconds it prints are below 60, the
    hours are not negative, and hours, minutes and seconds add up to the
    uptime rounded down. *)
Theorem uptime_decomposition (seconds : Q) :
  (0 <= seconds)%Q →
  let '(h, m, s) := uptime_parts seconds in
  _formatUptime seconds
  = pretty h +:+ "h " +:+ pretty m +:+ "m " +:+ pretty s +:+ "s" ∧
  0 ≤ h ∧ 0 ≤ m < 60 ∧ 0 ≤ s < 60 ∧
  h * 3600 + m * 60 + s = Qfloor seconds.
Proof.
  intros Hs. unfold _formatUptime, uptime_parts. cbv zeta.
  split; [done|].
  set (n := Qfloor seconds).
  assert (H3600 : 0 < 3600) by lia. assert (H60 : 0 < 60) by lia.
  assert (Hn : 0 ≤ n).
  { subst n. change 0 with (Qfloor 0). by apply Qfloor_resp_le. }
  assert (Hh : Qfloor (seconds / 3600) = n / 3600).
  { change 3600%Q with (inject_Z 3600). by apply Qfloor_div_pos. }
  assert (Hm : Qfloor (js_rem seconds 3600 / 60) = (n mod 3600) / 60).
  { change 3600%Q with (inject_Z 3600). change 60%Q with (inject_Z 60).
    rewrite Qfloor_div_pos by lia. f_equal.
    rewrite (Qfloor_comp _ _ (js_rem_nonneg seconds 3600 Hs H3600)).
    rewrite Qfloor_sub_Z. fold n. rewrite Z.mod_eq by lia. reflexivity. }
  assert (Hsec : Qfloor (js_rem seconds 60) = n mod 60).
  { change 60%Q with (inject_Z 60).
    rewrite (Qfloor_comp _ _ (js_rem_nonneg seconds 60 Hs H60)).
    rewrite Qfloor_sub_Z. fold n. rewrite Z.mod_eq by lia. reflexivity. }
  rewrite Hh, Hm, Hsec.
  pose proof (Z.div_mod n 3600) as D1.
  pose proof (Z.mod_pos_bound n 3600 H3600) as B1.
  pose proof (Z.div_mod (n mod 3600) 60) as D2.
  pose proof (Z.mod_pos_bound (n mod 3600) 60 H60) as B2.
  pose proof (Z.mod_pos_bound n 60 H60) as B3.
  assert (Hmm : (n mod 3600) mod 60 = n mod 60).
  { replace 3600 with (60 * 60) by lia. rewrite Z.rem_mul_r by lia.
    rewrite (Z.mul_comm 60 ((n / 60) mod 60)), Z.mod_add by lia.
    apply Z.mod_mod. lia. }
  assert (0 ≤ n / 3600) by (apply Z.div_pos; lia).
  assert (0 ≤ (n mod 3600) / 60 < 60).
  { split; [apply Z.div_pos; lia|]. apply Z.div_lt_upper_bound; lia. }
  repeat split; lia.
Qed.

(** An uptime of 3725.5 seconds. *)
Example uptime_sample : _formatUptime (7451 # 2) = "1h 2m 5s".
Proof. vm_compute. reflexivity. Qed.

(** [uptime_decomposition] at 3725.5 seconds. *)
Lemma uptime_decomposition_witness :
  (0 <= 7451 # 2)%Q ∧
  (let '(h, m, s) := uptime_parts (7451 # 2) in
   h * 3600 + m * 60 + s = Qfloor (7451 # 2)).
Proof.
  assert (H0 : (0 <= 7451 # 2)%Q) by (by vm_compute).
  split; [exact H0 |].
  apply (uptime_decomposition (7451 # 2) H0).
Defined.

End SystemExtra.

(** ** The authentication middleware *)

Module AuthFacts.

Import Logger Auth JSFacts Samples LoggerFacts.

Lemma prefix_app (p s : string) : String.prefix p (p +:+ s) = true.
Proof.
  induction p as [|a p IH]; simpl.
  - by destruct s.
  - destruct (Ascii.ascii_dec a a); [exact IH | done].
Qed.

Section Facts.

Context {W : Type}.
Variable MAX_LINES : Z.
Variable trim : string → string.

Abbreviation authMiddleware := (@authMiddleware W MAX_LINES trim).

(** X15.  Public paths are matched by prefix and bypass everything: a request
    whose path starts with [/health] or [/api/status] (such as
    [/healthcheck] or [/api/status/x]) is passed on whatever the configured
    token and the credential, and nothing is logged. *)
Theorem public_paths_bypass (t : Tick) (token : option string)
    (req : Request) (L : @K11Logger W) (w : W) (rest : string) :
  path req = "/health" +:+ rest ∨ path req = "/api/status" +:+ rest →
  authMiddleware t token req L w = (L, w, Return Next).
Proof.
  intros Hpath. unfold Auth.authMiddleware.
  assert (Hpub : is_public (path req) = true).
  { unfold is_public, PUBLIC_PATHS. cbn [existsb].
    destruct Hpath as [-> | ->]; rewrite prefix_app.
    - done.
    - apply orb_true_iff. right. done. }
  by rewrite Hpub.
Qed.

(** X16.  With a token configured, a request to a path that is not public is
    passed on exactly when the credential it carries equals the token, and
    then nothing is logged.  Otherwise one [warn] entry of module [AUTH] is
    logged and the request is answered 401 (or the logger throws); it is
    never passed on.  The credential is the trimmed rest of an
    [Authorization] header that starts with [Bearer ], whatever [_token]
    the query carries, and the query's [_token] only without such a
    header. *)
Theorem token_required (t : Tick) (tk : string) (req : Request)
    (L : @K11Logger W) (w : W) :
  tk ≠ EmptyString →
  is_public (path req) = false →
  let res := authMiddleware t (Some tk) req L w in
  (res.2 = Return Next ↔ provided trim req = tk) ∧
  (provided trim req = tk → res = (L, w, Return Next)) ∧
  (provided trim req ≠ tk →
   (res.2 = Return Unauthorized ∨ res.2 = Throw) ∧
   ∃ entry, level entry = "warn" ∧ module_ entry = "AUTH" ∧
            meta entry = Some (rejection_meta req) ∧
            _buffer res.1.1 = push_rolling MAX_LINES entry (_buffer L)) ∧
  (∀ h, authorization req = Some h → String.prefix "Bearer " h = true →
        provided trim req = trim (after_bearer h)) ∧
  (∀ h, authorization req = Some h → String.prefix "Bearer " h = false →
        provided trim req = or_default (query_token req) EmptyString) ∧
  (authorization req = None →
   provided trim req = or_default (query_token req) EmptyString).
Proof.
  intros Htk Hpub res.
  assert (Htruthy : truthy (Some tk) = true).
  { simpl. by destruct (String.eqb_spec tk EmptyString). }
  assert (Hcases :
    (provided trim req = tk ∧ res = (L, w, Return Next)) ∨
    (provided trim req ≠ tk ∧
     res = let '(L', w', c) :=
             warn MAX_LINES t (Some "AUTH") "Token inválido ou ausente"
               (Some (rejection_meta req)) L w in
           (L', w', match c with
                    | Return _ => Return Unauthorized
                    | Throw => Throw
                    end))).
  { subst res. unfold Auth.authMiddleware. rewrite Hpub, Htruthy. simpl.
    destruct (decide (provided trim req = tk)) as [Heq|Hne].
    - left. split; [done|]. rewrite Heq.
      rewrite bool_decide_true by done.
      by destruct (String.eqb_spec tk EmptyString).
    - right. split; [done|].
      rewrite (bool_decide_false (Some (provided trim req) = Some tk))
        by congruence.
      by rewrite orb_true_r. }
  assert (Hwarn : provided trim req ≠ tk →
    (res.2 = Return Unauthorized ∨ res.2 = Throw) ∧
    ∃ entry, level entry = "warn" ∧ module_ entry = "AUTH" ∧
             meta entry = Some (rejection_meta req) ∧
             _buffer res.1.1 = push_rolling MAX_LINES entry (_buffer L)).
  { intros Hne. destruct Hcases as [[Heq _]|[_ Hres]]; [done|].
    rewrite Hres. unfold warn.
    pose proof (write_buffer MAX_LINES t "warn" (Some "AUTH")
                  "Token inválido ou ausente" (Some (rejection_meta req)) L w)
      as Hbuf.
    destruct (_write MAX_LINES t "warn" (Some "AUTH")
                "Token inválido ou ausente" (Some (rejection_meta req)) L w)
      as [[L' w'] c].
    simpl in *. split; [destruct c; auto|].
    eexists. split_and!; [| | | exact Hbuf]; done. }
  split_and!.
  - split.
    + intros Hnext. destruct (decide (provided trim req = tk)); [done|].
      destruct (Hwarn n) as [[H|H] _]; congruence.
    + intros Heq. destruct Hcases as [[_ ->]|[Hne _]]; done.
  - intros Heq. destruct Hcases as [[_ ->]|[Hne _]]; done.
  - exact Hwarn.
  - intros h Hh Hpre. unfold provided. rewrite Hh. simpl.
    destruct (String.eqb_spec h EmptyString) as [->|_]; [done|].
    by rewrite Hpre.
  - intros h Hh Hpre. unfold provided. rewrite Hh. simpl.
    destruct (String.eqb_spec h EmptyString) as [->|_]; [done|].
    by rewrite Hpre.
  - intros Hh. unfold provided. by rewrite Hh.
Qed.

(** X17.  Without a configured token (unset or empty) the check is off: a request
    to a path that is not public is never answered 401, whatever it
    carries; each such request logs one [warn] entry of module [AUTH]. *)
Theorem no_token_no_check (t : Tick) (token : option string) (req : Request)
    (L : @K11Logger W) (w : W) :
  truthy token = false →
  is_public (path req) = false →
  let res := authMiddleware t token req L w in
  (res.2 = Return Next ∨ res.2 = Throw) ∧
  res.2 ≠ Return Unauthorized ∧
  (_listeners L = [] → res.2 = Return Next) ∧
  _stats res.1.1 = bump "warn" (_stats L) ∧
  ∃ entry, level entry = "warn" ∧ module_ entry = "AUTH" ∧
           _buffer res.1.1 = push_rolling MAX_LINES entry (_buffer L).
Proof.
  intros Htok Hpub res. subst res. unfold Auth.authMiddleware.
  rewrite Hpub, Htok. simpl. unfold warn.
  set (msg := "API_SECRET_TOKEN não configurado — auth desativada").
  pose proof (write_buffer MAX_LINES t "warn" (Some "AUTH") msg None L w)
    as Hbuf.
  pose proof (write_stats MAX_LINES t "warn" (Some "AUTH") msg None L w)
    as Hstats.
  assert (Hret : _listeners L = [] →
    (_write MAX_LINES t "warn" (Some "AUTH") msg None L w).2
    = Return (make_entry t (_startTime L) "warn" (Some "AUTH") msg None)).
  { intros Hls. unfold _write. cbn [_listeners]. rewrite Hls. done. }
  destruct (_write MAX_LINES t "warn" (Some "AUTH") msg None L w)
    as [[L' w'] c].
  simpl in *. split_and!.
  - destruct c; auto.
  - by destruct c.
  - intros Hls. specialize (Hret Hls). by rewrite Hret.
  - done.
  - eexists. split_and!; [| | exact Hbuf]; done.
Qed.

End Facts.

(** [public_paths_bypass] for [/healthcheck] with a token configured. *)
Lemma public_paths_bypass_witness :
  (Auth.path req_health = "/health" +:+ "check"
   ∨ Auth.path req_health = "/api/status" +:+ "check") ∧
  authMiddleware (W:=unit) 2000 (λ x, x) tick0 (Some "s3cret") req_health
    (new 0) tt
  = (new 0, tt, Return Next).
Proof.
  assert (H : Auth.path req_health = "/health" +:+ "check"
              ∨ Auth.path req_health = "/api/status" +:+ "check")
    by (left; reflexivity).
  split; [exact H |].
  apply (public_paths_bypass (W:=unit) 2000 (λ x, x) tick0 (Some "s3cret")
           req_health (new 0) tt "check" H).
Defined.

(** [token_required] for a request that carries the token in its header. *)
Lemma token_required_witness :
  "s3cret" ≠ EmptyString ∧
  is_public (Auth.path req_data) = false ∧
  provided (λ x, x) req_data = "s3cret" ∧
  (authMiddleware (W:=unit) 2000 (λ x, x) tick0 (Some "s3cret") req_data
     (new 0) tt).2 = Return Next.
Proof.
  assert (H1 : "s3cret" ≠ EmptyString) by discriminate.
  assert (H2 : is_public (Auth.path req_data) = false) by reflexivity.
  assert (H3 : provided (λ x, x) req_data = "s3cret") by reflexivity.
  split_and!; [exact H1 | exact H2 | exact H3 |].
  apply (token_required (W:=unit) 2000 (λ x, x) tick0 "s3cret" req_data
           (new 0) tt H1 H2).
  exact H3.
Defined.

(** [no_token_no_check] for the same request on a server without token. *)
Lemma no_token_no_check_witness :
  truthy None = false ∧
  is_public (Auth.path req_data) = false ∧
  (authMiddleware (W:=unit) 2000 (λ x, x) tick0 None req_data (new 0) tt).2
  ≠ Return Unauthorized.
Proof.
  assert (H1 : truthy None = false) by reflexivity.
  assert (H2 : is_public (Auth.path req_data) = false) by reflexivity.
  split_and!; [exact H1 | exact H2 |].
  apply (no_token_no_check (W:=unit) 2000 (λ x, x) tick0 None req_data
           (new 0) tt H1 H2).
Defined.

End AuthFacts.

(** ** The analysis of logs *)

Module SupervisorFacts.

Import Logger Supervisor JSFacts Samples LoggerFacts.

Section Facts.

Variable toUpperCase : string → string.
Variable systemPrompt : string.
Variable _callGroq : list (string * string) → GroqResult.

Abbreviation analyzeLogs := (analyzeLogs toUpperCase systemPrompt _callGroq).
Abbreviation logs_prompt := (logs_prompt toUpperCase).

(** The messages sent for a selection of logs. *)
Abbreviation messages_for sel :=
  [("system", systemPrompt); ("user", logs_prompt sel)].

Lemma analyzeLogs_unfold (now_iso : string) (logs : list LogEntry) :
  let sel := take 20 (filter (λ l, is_critical l) logs) in
  analyzeLogs now_iso (Some logs)
  = if bool_decide (sel = []) then None
    else match _callGroq (messages_for sel) with
         | Resolved response =>
             Some {| diagnosis := response; logsAnalyzed := length sel;
                     d_ts := now_iso |}
         | Rejected _ => None
         end.
Proof.
  cbv zeta. unfold Supervisor.analyzeLogs.
  destruct logs as [|l logs]; [done|].
  rewrite (slice_prefix 20).
  set (sel := take 20 _).
  destruct sel as [|x sel']; [done|].
  rewrite (bool_decide_false (length (x :: sel') = 0%nat)) by (simpl; lia).
  rewrite (bool_decide_false (x :: sel' = [])) by discriminate. reflexivity.
Qed.

(** X18.  [analyzeLogs] looks at the first twenty entries of level [error] or
    [critical] of its argument and at nothing else.  When there is none
    (also for a missing or empty argument) the result is [null], whatever
    the API would answer.  A result that is not [null] carries the answer of
    the API to the prompt made of those entries, and [logsAnalyzed] is their
    number: at least one, at most twenty, the number of such entries in the
    argument when that is smaller. *)
Theorem analyzeLogs_selection (now_iso : string) (logs : list LogEntry) :
  let crit := filter (λ l, is_critical l) logs in
  analyzeLogs now_iso None = None ∧
  (crit = [] → analyzeLogs now_iso (Some logs) = None) ∧
  (∀ d, analyzeLogs now_iso (Some logs) = Some d →
        _callGroq (messages_for (take 20 crit)) = Resolved (diagnosis d) ∧
        logsAnalyzed d = (length crit `min` 20)%nat ∧
        (1 ≤ logsAnalyzed d ≤ 20)%nat ∧
        d_ts d = now_iso) ∧
  (∀ msg, _callGroq (messages_for (take 20 crit)) = Rejected msg →
          analyzeLogs now_iso (Some logs) = None).
Proof.
  intros crit. rewrite analyzeLogs_unfold. cbv zeta. fold crit.
  split_and!.
  - done.
  - intros ->. done.
  - intros d Hd. case_bool_decide as Hsel; [done|].
    destruct (_callGroq _) as [response|msg] eqn:Hg; [|done].
    injection Hd as <-. simpl.
    assert (Hlen : length (take 20 crit) = (length crit `min` 20)%nat)
      by (rewrite length_take; lia).
    split_and!; [done | done | | | done].
    + destruct (take 20 crit); [done | simpl; lia].
    + rewrite Hlen. lia.
  - intros msg Hg. rewrite Hg. by case_bool_decide.
Qed.

(** X19.  [POST /analyze-logs] analyses the newest twenty [error] or [critical]
    entries among the last hundred of the buffer.  It answers that there is
    no critical error exactly when there is no such entry among these
    hundred or when the call of the API fails: a failure of the API is not
    told apart from a clean log.  Older entries of the buffer are not
    looked at. *)
Theorem analyze_logs_answer {W} (now_iso : string) (L : @K11Logger W) :
  let recent := reverse (keep_last 100 (_buffer L)) in
  let sel := take 20 (filter (λ l, is_critical l) recent) in
  let res := analyze_logs_route toUpperCase systemPrompt _callGroq now_iso L in
  (res = NoCriticalErrors
   ↔ sel = [] ∨ ∃ msg, _callGroq (messages_for sel) = Rejected msg) ∧
  (∀ d, res = Diagnosed d →
        _callGroq (messages_for sel) = Resolved (diagnosis d) ∧
        logsAnalyzed d = length sel).
Proof.
  intros recent sel res. subst res. unfold analyze_logs_route.
  rewrite getLogs_unfiltered by lia.
  change (Z.to_nat 100) with 100%nat. fold recent.
  rewrite analyzeLogs_unfold. cbv zeta. fold sel.
  case_bool_decide as Hsel.
  - split; [split; [auto | done] | done].
  - destruct (_callGroq (messages_for sel)) as [response|msg] eqn:Hg.
    + simpl. split.
      * split; [discriminate|]. intros [?|[msg ?]]; done.
      * intros d Hd. injection Hd as <-. done.
    + simpl. split; [|discriminate]. split; [|done].
      intros _. right. by exists msg.
Qed.

End Facts.

End SupervisorFacts.
